(** * yapl: lossy bigram counting and PMI phrase scoring

    A shallow embedding of the counting core of [yapl/yapl.py]:
    the class [BigramCounter] (Lossy Counting over ordered token pairs),
    the exact unigram [Counter], and the PMI scoring loop of
    [insert_articles_to_lexicon].

    Modelling conventions.
    - Python [dict] / [defaultdict(dict)] / [Counter] are finite maps
      ([gmap]); a missing key of a [defaultdict(dict)] reads as the empty
      dictionary, a missing key of a [Counter] reads as [0].
    - Python [int] is [Z]; [%] is [Z.modulo] (the sign follows the divisor
      in both) and raises [ZeroDivisionError] on a zero divisor.
    - [delta] is an IEEE-754 binary64 value ([spec_float] with precision 53
      and maximal exponent 1024); [1 / delta] is the correctly rounded
      quotient and [int(...)] truncates towards zero.
    - Python exceptions are the [Raise] case of an error monad.
    - The PMI arithmetic ([/] on counts and [math.log]) is carried out in
      the real numbers, an idealisation: the code computes in binary64, and
      the rounding of [/] and of the platform's [log] is not modelled.
      The properties proved of the scorer below are about which entries
      the loop visits, about the absence of errors, and about values far
      from the threshold 1000 of the source. On which side of a threshold
      a value close to it falls is decided by the rounded value and is
      outside this model. *)

From Stdlib Require Import ZArith QArith Qround Reals Lra Lia SpecFloat Ascii.
From stdpp Require Import gmap strings list fin_maps.

Local Open Scope Z_scope.

(** ** Exceptions and the error monad *)

Inductive exn : Type :=
| ZeroDivisionError
| OverflowError
| ValueError
| KeyError.

Inductive result (A : Type) : Type :=
| Ok (a : A)
| Raise (e : exn).
Arguments Ok {A} a.
Arguments Raise {A} e.

#[global] Instance result_ret : MRet result := fun A a => Ok a.
#[global] Instance result_bind : MBind result := fun A B f m =>
  match m with
  | Ok a => f a
  | Raise e => Raise e
  end.

Definition is_Ok {A} (r : result A) : Prop := ∃ a, r = Ok a.

(** ** Python numbers *)

Module Py.

(** binary64 *)
Definition prec : Z := 53.
Definition emax : Z := 1024.

Definition is_zero (x : spec_float) : bool :=
  match x with
  | S754_zero _ => true
  | _ => false
  end.

(** [float(z)] for an [int] operand of a float operation. *)
Definition float_of_int (z : Z) : result spec_float :=
  match binary_normalize prec emax z 0 false with
  | S754_infinity _ => Raise OverflowError
  | x => Ok x
  end.

(** [x / y] on floats. *)
Definition truediv (x y : spec_float) : result spec_float :=
  if is_zero y then Raise ZeroDivisionError
  else Ok (SFdiv prec emax x y).

(** [int(x)] on a float: truncation towards zero. *)
Definition int (x : spec_float) : result Z :=
  match x with
  | S754_zero _ => Ok 0
  | S754_infinity _ => Raise OverflowError
  | S754_nan => Raise ValueError
  | S754_finite s m e =>
      Ok (cond_Zopp s (if decide (0 ≤ e) then Z.pos m * 2 ^ e
                       else Z.pos m `div` 2 ^ (- e)))
  end.

(** [a % b] on ints. *)
Definition mod_ (a b : Z) : result Z :=
  if decide (b = 0) then Raise ZeroDivisionError else Ok (a `mod` b).

(** [d[k1][k2]] on a [defaultdict(dict)]: the outer lookup never fails,
    the inner one raises [KeyError]. *)
Definition getitem2 (d : gmap string (gmap string Z)) (k1 k2 : string)
  : result Z :=
  match (default ∅ (d !! k1)) !! k2 with
  | Some v => Ok v
  | None => Raise KeyError
  end.

(** [del d[k1][k2]] on a [defaultdict(dict)]. *)
Definition delitem2 (d : gmap string (gmap string Z)) (k1 k2 : string)
  : result (gmap string (gmap string Z)) :=
  let sub := default ∅ (d !! k1) in
  match sub !! k2 with
  | Some _ => Ok (<[k1 := delete k2 sub]> d)
  | None => Raise KeyError
  end.

End Py.

(** The entry of the pair [(k1, k2)] in a two-level table, if any. *)
Definition lookup2 (d : gmap string (gmap string Z)) (k1 k2 : string)
  : option Z :=
  d !! k1 ≫= (.!! k2).

(** ** class BigramCounter *)

Module BigramCounter.

Record t : Type := mk {
  n : Z;
  delta : spec_float;
  bigrams : gmap string (gmap string Z);
  bucket_ids : gmap string (gmap string Z);
  current_bucket_id : Z;
  stopwords : list string
}.

(** [__init__]: no check is made on [delta]. *)
Definition init (delta : spec_float) (stopwords : list string) : t :=
  {| n := 0;
     delta := delta;
     bigrams := ∅;
     bucket_ids := ∅;
     current_bucket_id := 1;
     stopwords := stopwords |}.

(** [int(1 / self.delta)] *)
Definition width (delta : spec_float) : result Z :=
  one ← Py.float_of_int 1;
  q ← Py.truediv one delta;
  Py.int q.

(** Lines 114-120 of [add]: advance [n], then record the pair unless one
    of its tokens is a stopword. *)
Definition count_pair (s : t) (t1 t2 : string) : t :=
  let n' := n s + 1 in
  if decide ((t1 ∉ stopwords s) ∧ (t2 ∉ stopwords s)) then
    let subtree := default ∅ (bigrams s !! t1) in
    match subtree !! t2 with
    | Some count =>
        {| n := n';
           delta := delta s;
           bigrams := <[t1 := <[t2 := count + 1]> subtree]> (bigrams s);
           bucket_ids := bucket_ids s;
           current_bucket_id := current_bucket_id s;
           stopwords := stopwords s |}
    | None =>
        {| n := n';
           delta := delta s;
           bigrams := <[t1 := <[t2 := 1]> subtree]> (bigrams s);
           bucket_ids :=
             <[t1 := <[t2 := current_bucket_id s - 1]>
                       (default ∅ (bucket_ids s !! t1))]> (bucket_ids s);
           current_bucket_id := current_bucket_id s;
           stopwords := stopwords s |}
    end
  else
    {| n := n';
       delta := delta s;
       bigrams := bigrams s;
       bucket_ids := bucket_ids s;
       current_bucket_id := current_bucket_id s;
       stopwords := stopwords s |}.

Definition is_boundary_of_bucket (s : t) : result bool :=
  w ← width (delta s);
  r ← Py.mod_ (n s) w;
  Ok (bool_decide (r = 0)).

(** The inner loop of [weed_out_bigrams] over the items of one subtree. *)
Fixpoint scan_subtree (s : t) (t1 : string) (items : list (string * Z))
  : result (list (string * string)) :=
  match items with
  | [] => Ok []
  | (t2, count) :: rest =>
      b ← Py.getitem2 (bucket_ids s) t1 t2;
      q ← scan_subtree s t1 rest;
      Ok (if decide (count ≤ current_bucket_id s - b)
          then (t1, t2) :: q else q)
  end.

(** The outer loop: the queue of pairs to delete. *)
Fixpoint scan (s : t) (items : list (string * gmap string Z))
  : result (list (string * string)) :=
  match items with
  | [] => Ok []
  | (t1, subtree) :: rest =>
      q1 ← scan_subtree s t1 (map_to_list subtree);
      q ← scan s rest;
      Ok (q1 ++ q)
  end.

(** The second loop: delete every queued pair from both tables. *)
Fixpoint delete_queue (queue : list (string * string))
    (bg ids : gmap string (gmap string Z))
  : result (gmap string (gmap string Z) * gmap string (gmap string Z)) :=
  match queue with
  | [] => Ok (bg, ids)
  | (t1, t2) :: rest =>
      bg' ← Py.delitem2 bg t1 t2;
      ids' ← Py.delitem2 ids t1 t2;
      delete_queue rest bg' ids'
  end.

Definition weed_out_bigrams (s : t) : result t :=
  queue ← scan s (map_to_list (bigrams s));
  '(bg, ids) ← delete_queue queue (bigrams s) (bucket_ids s);
  Ok {| n := n s;
        delta := delta s;
        bigrams := bg;
        bucket_ids := ids;
        current_bucket_id := current_bucket_id s;
        stopwords := stopwords s |}.

Definition move_next_bucket (s : t) : result t :=
  weed_out_bigrams
    {| n := n s;
       delta := delta s;
       bigrams := bigrams s;
       bucket_ids := bucket_ids s;
       current_bucket_id := current_bucket_id s + 1;
       stopwords := stopwords s |}.

Definition add (s : t) (t1 t2 : string) : result t :=
  let s1 := count_pair s t1 t2 in
  b ← is_boundary_of_bucket s1;
  if b : bool then move_next_bucket s1 else Ok s1.

(** [for t1, t2 in pairs: counter.add(t1, t2)] *)
Fixpoint add_all (s : t) (pairs : list (string * string)) : result t :=
  match pairs with
  | [] => Ok s
  | (t1, t2) :: rest => s' ← add s t1 t2; add_all s' rest
  end.

(** [snapshot]: the count recorded for a pair, if it has an entry. *)
Definition count (s : t) (t1 t2 : string) : option Z :=
  lookup2 (bigrams s) t1 t2.

Definition created_bucket (s : t) (t1 t2 : string) : option Z :=
  lookup2 (bucket_ids s) t1 t2.

End BigramCounter.

(** ** Concrete floats and streams used in examples *)

Definition f_0_5 : spec_float := S754_finite false 1 (-1).
Definition f_0_75 : spec_float := S754_finite false 3 (-2).
Definition f_2_0 : spec_float := S754_finite false 1 1.
(** [5e-3], the [delta] the source passes: 0x1.47ae147ae147bp-8 *)
Definition f_5e_3 : spec_float := S754_finite false 0x147ae147ae147b (-60).

Definition scenario_stream : list (string * string) :=
  [("a", "b"); ("a", "b"); ("c", "d"); ("a", "b")]%string.

(** Unigram counts [{x: 10, y: 5}] and the single bigram entry y -> x with
    count 5. *)
Definition scenario_unigrams : gmap string Z :=
  <["x"%string := 10]> {["y"%string := 5]}.
Definition scenario_bigrams : gmap string (gmap string Z) :=
  {["y"%string := {["x"%string := 5]}]}.

(** ** collections.Counter *)

Module Counter.

(** [c[k]]: a missing key reads as [0] and is not inserted. *)
Definition get (c : gmap string Z) (k : string) : Z := default 0 (c !! k).

(** [Counter(tokens)]: one increment per element. *)
Definition of_tokens (tokens : list string) : gmap string Z :=
  foldl (λ c tok, <[tok := get c tok + 1]> c) ∅ tokens.

(** [c += other]: add the counts of [other], then keep the positive
    entries. *)
Definition iadd (c other : gmap string Z) : gmap string Z :=
  filter (λ kv, 0 < kv.2)
    (foldl (λ c kv, <[kv.1 := get c kv.1 + kv.2]> c) c (map_to_list other)).

(** [sum(c.values())] *)
Definition total (c : gmap string Z) : Z :=
  foldl Z.add 0 ((map_to_list c).*2).

End Counter.

(** ** The counting pass of [insert_articles_to_lexicon] (lines 146-155)

    [articles] is the token list of each article file, in the order the
    files are read. *)

Definition pairs_of (tokens : list string) : list (string * string) :=
  zip tokens (tail tokens).

Fixpoint count_articles (unigrams : gmap string Z) (counter : BigramCounter.t)
    (articles : list (list string))
  : result (gmap string Z * BigramCounter.t) :=
  match articles with
  | [] => Ok (unigrams, counter)
  | tokens :: rest =>
      let unigrams' := Counter.iadd unigrams (Counter.of_tokens tokens) in
      counter' ← BigramCounter.add_all counter (pairs_of tokens);
      count_articles unigrams' counter' rest
  end.

(** ** The scoring pass (lines 157-168) *)

Module Scorer.

(** [x / y] yielding a float, idealised in the reals (the code's quotient
    is the binary64 rounding of this one). *)
Definition truediv (x y : R) : result R :=
  if Req_dec_T y 0 then Raise ZeroDivisionError else Ok (x / y)%R.

(** [math.log(x)], idealised in the reals (the code's value is a binary64
    approximation of this one, as the platform's [log] computes it). *)
Definition log (x : R) : result R :=
  if Rlt_dec 0 x then Ok (ln x) else Raise ValueError.

(** The body of the inner loop up to [pmi] (lines 163-165), over the
    idealised operations above. *)
Definition pmi (count_x_given_y count_all_given_y unigram_x count_all : Z)
  : result R :=
  p_x_given_y ← truediv (IZR count_x_given_y) (IZR count_all_given_y);
  p_x ← truediv (IZR unigram_x) (IZR count_all);
  ratio ← truediv p_x_given_y p_x;
  log ratio.

Fixpoint score_subtree (threshold : R) (unigrams : gmap string Z)
    (count_all : Z) (token_y : string) (count_all_given_y : Z)
    (items : list (string * Z)) : result (list string) :=
  match items with
  | [] => Ok []
  | (token_x, count_x_given_y) :: rest =>
      v ← pmi count_x_given_y count_all_given_y
            (Counter.get unigrams token_x) count_all;
      ps ← score_subtree threshold unigrams count_all token_y
             count_all_given_y rest;
      Ok (if Rge_dec v threshold
          then (token_y +:+ " " +:+ token_x) :: ps else ps)
  end.

Fixpoint score_table (threshold : R) (unigrams : gmap string Z)
    (count_all : Z) (items : list (string * gmap string Z))
  : result (list string) :=
  match items with
  | [] => Ok []
  | (token_y, subtree) :: rest =>
      let count_all_given_y := Counter.total subtree in
      ps1 ← score_subtree threshold unigrams count_all token_y
              count_all_given_y (map_to_list subtree);
      ps ← score_table threshold unigrams count_all rest;
      Ok (ps1 ++ ps)
  end.

(** The list [phrases] built by the loop of lines 160-168. The acceptance
    threshold is an argument here; the source has no such input and runs
    the loop with [threshold] below only, as [article_phrases] does. *)
Definition phrases (threshold : R) (unigrams : gmap string Z)
    (bigrams : gmap string (gmap string Z)) : result (list string) :=
  score_table threshold unigrams (Counter.total unigrams)
    (map_to_list bigrams).

(** The threshold the source fixes (line 145). *)
Definition threshold : R := 1000.

End Scorer.

(** The list [phrases] that [insert_articles_to_lexicon] hands to the
    lexicon, from the stopword list and the token lists of the articles:
    the counting pass with [delta = 5e-3], then the scoring pass with the
    threshold 1000. *)
Definition article_phrases (sw : list string) (articles : list (list string))
  : result (list string) :=
  '(unigrams, counter) ←
    count_articles ∅ (BigramCounter.init f_5e_3 sw) articles;
  Scorer.phrases Scorer.threshold unigrams (BigramCounter.bigrams counter).

(** ** Quantities the specification speaks about *)

(** The statistic [ln(p_x_given_y / p_x)] of the specification. *)
Definition pmi_value (count_x_given_y count_all_given_y unigram_x count_all : Z)
  : R :=
  ln ((IZR count_x_given_y / IZR count_all_given_y)
      / (IZR unigram_x / IZR count_all)).

(** The exact rational value of a finite float. *)
Definition float_value (x : spec_float) : option Q :=
  match x with
  | S754_zero _ => Some 0%Q
  | S754_finite s m e =>
      Some (if decide (0 ≤ e)
            then inject_Z (cond_Zopp s (Z.pos m) * 2 ^ e)
            else Qmake (cond_Zopp s (Z.pos m)) (Z.to_pos (2 ^ (- e))))
  | _ => None
  end.

(** The number of occurrences of a pair in a stream. *)
Definition frequency (p : string * string) (stream : list (string * string))
  : Z :=
  Z.of_nat (length (filter (λ q, q = p) stream)).

(** The number of occurrences of a token in a token stream. *)
Definition occurrences (tok : string) (tokens : list string) : Z :=
  Z.of_nat (length (filter (λ x, x = tok) tokens)).

(** The window width the specification derives, [ceil(1 / delta)]. *)
Definition spec_width (delta : spec_float) : option Z :=
  q ← float_value delta;
  Some (Qceiling (/ q)).

(** The Lossy Counting guarantee as the specification states it, for the
    table reached after the whole stream. *)
Definition lossy_counting_guarantee (delta : spec_float)
    (stopwords : list string) (stream : list (string * string)) : Prop :=
  ∃ s d,
    BigramCounter.add_all (BigramCounter.init delta stopwords) stream = Ok s
    ∧ float_value delta = Some d
    ∧ (∀ t1 t2 c, BigramCounter.count s t1 t2 = Some c →
         c ≤ frequency (t1, t2) stream)
    ∧ (∀ t1 t2,
         (d * inject_Z (Z.of_nat (length stream))
            < inject_Z (frequency (t1, t2) stream))%Q →
         is_Some (BigramCounter.count s t1 t2)).

(** [delta] lies in the open interval (0,1). *)
Definition in_unit_interval (delta : spec_float) : Prop :=
  ∃ q, float_value delta = Some q ∧ (0 < q)%Q ∧ (q < 1)%Q.

(** ** Invariants of the counter *)

Section invariants.
Import BigramCounter.

(** The test of line 136 for a pair with an entry in both tables. *)
Definition weeded (s : t) (t1 t2 : string) : Prop :=
  match count s t1 t2, created_bucket s t1 t2 with
  | Some c, Some b => c ≤ current_bucket_id s - b
  | _, _ => False
  end.

#[global] Instance weeded_dec (s : t) (t1 t2 : string) : Decision (weeded s t1 t2).
Proof.
  unfold weeded.
  destruct (count s t1 t2), (created_bucket s t1 t2); apply _.
Defined.

(** Every entry of the bigram table has a creation bucket, and conversely. *)
Definition synced (s : t) : Prop :=
  ∀ t1 t2, is_Some (count s t1 t2) ↔ is_Some (created_bucket s t1 t2).

(** Every recorded count is positive and bounded by the number of
    occurrences of its pair among the pairs processed so far, and no pair
    with a stopword is recorded. *)
Definition sound (s : t) (pre : list (string * string)) : Prop :=
  ∀ t1 t2 c, count s t1 t2 = Some c →
    1 ≤ c ≤ frequency (t1, t2) pre
    ∧ t1 ∉ stopwords s ∧ t2 ∉ stopwords s.

End invariants.

(** ** Invariants of a [Counter] *)

(** No count is negative. *)
Definition nonneg (c : gmap string Z) : Prop :=
  ∀ tok v, c !! tok = Some v → 0 ≤ v.

(** Every stored count is positive. *)
Definition positive (c : gmap string Z) : Prop :=
  ∀ tok v, c !! tok = Some v → 0 < v.

(** ** What the counting pass guarantees to the scorer

    The unigram table stores positive counts only, every bigram entry has a
    positive count and its second token has been counted as a unigram. *)
Definition finished (unigrams : gmap string Z)
    (bigrams : gmap string (gmap string Z)) : Prop :=
  positive unigrams
  ∧ ∀ y x c, lookup2 bigrams y x = Some c →
      0 < c ∧ 0 < Counter.get unigrams x.

(** ** Page titles: the nested functions of [insert_pagetitles_to_lexicon]

    A Python [str] is the list of its characters. A raised [IndexError] is
    the [None] of an [option]. *)

Module PageTitles.

(** The characters of a string literal. *)
Definition str (s : string) : list ascii := String.list_ascii_of_string s.

(** [sub in s] on strings: [sub] occurs in [s] as a substring. *)
Fixpoint contains (sub s : list ascii) : bool :=
  if decide (sub `prefix_of` s) then true
  else match s with
       | [] => false
       | _ :: s' => contains sub s'
       end.

(** [chars = list('abcdefghijklmnopqrstuvwxyz')]: one-character strings. *)
Definition chars_letters : list (list ascii) :=
  (λ c, [c]) <$> str "abcdefghijklmnopqrstuvwxyz".

(** [chars = set('0123456789!-/:-@[-`{~')]: a set of characters. *)
Definition chars_symbols : list ascii := str "0123456789!-/:-@[-`{~".

Definition isnt_ignore (phrase : list ascii) : option bool :=
  c ← last phrase;
  Some
    (if bool_decide (c = ")"%char) && contains (str "_(") phrase then false
     else if bool_decide (length phrase = 1%nat)
             && bool_decide (phrase ∈ chars_letters) then false
     else if bool_decide (Forall (λ c, c ∈ chars_symbols) phrase) then false
     else if contains (str "(disambiguation)") phrase then false
     else if bool_decide (str "Lists_of" = take 8 phrase) then false
     else true).

(** [s.lstrip(ch)] for a one-character argument. *)
Fixpoint lstrip (ch : ascii) (s : list ascii) : list ascii :=
  match s with
  | [] => []
  | c :: s' => if decide (c = ch) then lstrip ch s' else s
  end.

(** [s.rstrip(ch)] for a one-character argument. *)
Definition rstrip (ch : ascii) (s : list ascii) : list ascii :=
  reverse (lstrip ch (reverse s)).

(** [s.replace(old, new)] for one-character arguments. *)
Definition replace (old new : ascii) (s : list ascii) : list ascii :=
  (λ c, if decide (c = old) then new else c) <$> s.

Definition sanitize (phrase : list ascii) : list ascii :=
  replace "_" " " (rstrip "_" (lstrip "_" phrase)).

(** [filter(isnt_ignore, striped_phrases)], consumed to the end. *)
Fixpoint ignored_phrases (striped_phrases : list (list ascii))
  : option (list (list ascii)) :=
  match striped_phrases with
  | [] => Some []
  | phrase :: rest =>
      match isnt_ignore phrase, ignored_phrases rest with
      | Some keep, Some kept => Some (if keep : bool then phrase :: kept else kept)
      | _, _ => None
      end
  end.

(** The phrases handed to [lexicon.insert_phrases] (lines 72-75), from the
    rows after [rstrip('\n').lower()]; the 1-tuple [(x,)] is [x]. *)
Definition phrases (striped_phrases : list (list ascii))
  : option (list (list ascii)) :=
  match ignored_phrases striped_phrases with
  | Some kept => Some (map sanitize kept)
  | None => None
  end.

End PageTitles.

(** ** [maybe_download]: the file name of a URL *)

Module Download.

(** [s.split(sep)] for a one-character separator. *)
Fixpoint split (sep : ascii) (s : list ascii) : list (list ascii) :=
  match s with
  | [] => [[]]
  | c :: s' =>
      if decide (c = sep) then [] :: split sep s'
      else match split sep s' with
           | h :: t => (c :: h) :: t
           | [] => [[c]]
           end
  end.

(** [sep.join(parts)] for a one-character separator. *)
Fixpoint join (sep : ascii) (parts : list (list ascii)) : list ascii :=
  match parts with
  | [] => []
  | [p] => p
  | p :: rest => p ++ sep :: join sep rest
  end.

(** [url.split('/')[-1]]; [None] is the exception of the [try] block. *)
Definition filename (url : list ascii) : option (list ascii) :=
  last (split "/" url).

End Download.

(** ** Further invariants of the counter *)

(** Every entry was created in an earlier bucket than the current one and
    has kept pace with the buckets since. *)
Definition bucket_wf (s : BigramCounter.t) : Prop :=
  1 ≤ BigramCounter.current_bucket_id s
  ∧ ∀ t1 t2 c b,
      BigramCounter.count s t1 t2 = Some c →
      BigramCounter.created_bucket s t1 t2 = Some b →
      0 ≤ b < BigramCounter.current_bucket_id s
      ∧ BigramCounter.current_bucket_id s ≤ c + b.

(** The table holds no entry at all. *)
Definition no_entries (s : BigramCounter.t) : Prop :=
  ∀ t1 t2, BigramCounter.count s t1 t2 = None.

(** Every entry was created in the current bucket and counts at most the
    pairs processed in it. *)
Definition fresh_entries (w : Z) (s : BigramCounter.t) : Prop :=
  ∀ t1 t2 c b,
    BigramCounter.count s t1 t2 = Some c →
    BigramCounter.created_bucket s t1 t2 = Some b →
    b = BigramCounter.current_bucket_id s - 1
    ∧ c ≤ BigramCounter.n s `mod` w.

(** * Properties *)

(** ** The error monad *)

Lemma bind_Ok {A B} (m : result A) (f : A → result B) (b : B) :
  m ≫= f = Ok b ↔ ∃ a, m = Ok a ∧ f a = Ok b.
Proof.
  destruct m as [a|e]; simpl; split.
  - eauto.
  - by intros (a' & [= ->] & ?).
  - done.
  - by intros (a' & ? & ?).
Qed.

Lemma is_Ok_Ok {A} (a : A) : is_Ok (Ok a).
Proof. by exists a. Qed.

Lemma not_is_Ok_Raise {A} (e : exn) : ¬ is_Ok (@Raise A e).
Proof. by intros [a ?]. Qed.

#[global] Hint Resolve is_Ok_Ok : core.

Ltac inv_bind H :=
  repeat match type of H with
  | _ ≫= _ = Ok _ =>
      let a := fresh "a" in
      let Ha := fresh "Ha" in
      apply bind_Ok in H as (a & Ha & H)
  end.

(** ** Two-level tables *)

Section tables.
Implicit Types d : gmap string (gmap string Z).

Lemma lookup2_default d (k1 k2 : string) :
  (default ∅ (d !! k1)) !! k2 = lookup2 d k1 k2.
Proof. unfold lookup2. by destruct (d !! k1). Qed.

Lemma lookup2_empty (k1 k2 : string) : lookup2 ∅ k1 k2 = None.
Proof. done. Qed.

Lemma lookup2_insert d (k1 k2 : string) v (j1 j2 : string) :
  lookup2 (<[k1 := <[k2 := v]> (default ∅ (d !! k1))]> d) j1 j2
  = if decide (k1 = j1 ∧ k2 = j2) then Some v else lookup2 d j1 j2.
Proof.
  unfold lookup2. destruct (decide (k1 = j1)) as [->|Hne].
  - rewrite lookup_insert_eq. simpl.
    destruct (decide (k2 = j2)) as [->|Hne2].
    + rewrite lookup_insert_eq. by rewrite decide_True.
    + rewrite lookup_insert_ne by done. rewrite decide_False by tauto.
      by destruct (d !! j1).
  - rewrite lookup_insert_ne by done. by rewrite decide_False by tauto.
Qed.

Lemma lookup2_delete d (k1 k2 j1 j2 : string) :
  lookup2 (<[k1 := delete k2 (default ∅ (d !! k1))]> d) j1 j2
  = if decide (k1 = j1 ∧ k2 = j2) then None else lookup2 d j1 j2.
Proof.
  unfold lookup2. destruct (decide (k1 = j1)) as [->|Hne].
  - rewrite lookup_insert_eq. simpl.
    destruct (decide (k2 = j2)) as [->|Hne2].
    + rewrite lookup_delete_eq. by rewrite decide_True.
    + rewrite lookup_delete_ne by done. rewrite decide_False by tauto.
      by destruct (d !! j1).
  - rewrite lookup_insert_ne by done. by rewrite decide_False by tauto.
Qed.

Lemma getitem2_Ok d (k1 k2 : string) v :
  Py.getitem2 d k1 k2 = Ok v ↔ lookup2 d k1 k2 = Some v.
Proof.
  unfold Py.getitem2. rewrite lookup2_default.
  destruct (lookup2 d k1 k2); naive_solver.
Qed.

Lemma delitem2_Ok d (k1 k2 : string) d' :
  Py.delitem2 d k1 k2 = Ok d' ↔
  is_Some (lookup2 d k1 k2) ∧ d' = <[k1 := delete k2 (default ∅ (d !! k1))]> d.
Proof.
  unfold Py.delitem2. cbv zeta. rewrite lookup2_default.
  destruct (lookup2 d k1 k2) as [v|]; split.
  - intros [= <-]. eauto.
  - by intros [_ ->].
  - done.
  - by intros [[? ?] _].
Qed.

(** Deleting an entry keeps every outer key. *)
Lemma delitem2_dom d (k1 k2 : string) d' :
  Py.delitem2 d k1 k2 = Ok d' → dom d' = dom d.
Proof.
  intros [[v Hv] ->]%delitem2_Ok. unfold lookup2 in Hv.
  destruct (d !! k1) as [sub|] eqn:Hk; [|done].
  rewrite dom_insert_L. apply elem_of_dom_2 in Hk. set_solver.
Qed.
End tables.

(** ** The deletion loop of [weed_out_bigrams] *)

Section delete_queue.
Import BigramCounter.
Implicit Types bg ids : gmap string (gmap string Z).
Implicit Types queue : list (string * string).

Lemma delete_queue_lookup queue : ∀ bg ids bg' ids',
  delete_queue queue bg ids = Ok (bg', ids') →
  ∀ k1 k2,
    lookup2 bg' k1 k2
    = (if decide ((k1, k2) ∈ queue) then None else lookup2 bg k1 k2)
    ∧ lookup2 ids' k1 k2
      = (if decide ((k1, k2) ∈ queue) then None else lookup2 ids k1 k2).
Proof.
  induction queue as [|[t1 t2] queue IH]; intros bg ids bg' ids' H k1 k2.
  - injection H as <- <-. rewrite !decide_False; [done|set_solver..].
  - simpl in H. inv_bind H.
    apply delitem2_Ok in Ha as [_ ->]. apply delitem2_Ok in Ha0 as [_ ->].
    destruct (IH _ _ _ _ H k1 k2) as [-> ->].
    rewrite !lookup2_delete.
    destruct (decide ((k1, k2) ∈ queue)) as [Hin|Hin].
    + rewrite !decide_True; [done|set_solver..].
    + destruct (decide (t1 = k1 ∧ t2 = k2)) as [[-> ->]|Hne].
      * rewrite !decide_True; [done|set_solver..].
      * rewrite !decide_False; [done|..];
          rewrite elem_of_cons; naive_solver.
Qed.

Lemma delete_queue_dom queue : ∀ bg ids bg' ids',
  delete_queue queue bg ids = Ok (bg', ids') →
  dom bg' = dom bg ∧ dom ids' = dom ids.
Proof.
  induction queue as [|[t1 t2] queue IH]; intros bg ids bg' ids' H.
  - by injection H as <- <-.
  - simpl in H. inv_bind H.
    apply delitem2_dom in Ha, Ha0. destruct (IH _ _ _ _ H) as [-> ->].
    by rewrite Ha, Ha0.
Qed.

(** The loop raises no [KeyError] when the queued pairs are distinct and
    all present in both tables. *)
Lemma delete_queue_total queue : ∀ bg ids,
  NoDup queue →
  (∀ k1 k2, (k1, k2) ∈ queue →
     is_Some (lookup2 bg k1 k2) ∧ is_Some (lookup2 ids k1 k2)) →
  is_Ok (delete_queue queue bg ids).
Proof.
  induction queue as [|[t1 t2] queue IH]; intros bg ids Hnd Hin; [simpl; eauto|].
  apply NoDup_cons in Hnd as [Hnotin Hnd].
  destruct (Hin t1 t2) as [Hbg Hids]; [set_solver|].
  simpl.
  destruct (Py.delitem2 bg t1 t2) as [bg1|] eqn:E1; cycle 1.
  { unfold Py.delitem2 in E1. cbv zeta in E1. rewrite lookup2_default in E1.
    destruct Hbg as [? Hbg]. by rewrite Hbg in E1. }
  destruct (Py.delitem2 ids t1 t2) as [ids1|] eqn:E2; cycle 1.
  { unfold Py.delitem2 in E2. cbv zeta in E2. rewrite lookup2_default in E2.
    destruct Hids as [? Hids]. by rewrite Hids in E2. }
  simpl. apply IH; [done|].
  intros k1 k2 Hk.
  apply delitem2_Ok in E1 as [_ ->]. apply delitem2_Ok in E2 as [_ ->].
  rewrite !lookup2_delete.
  rewrite !decide_False; [by apply Hin; set_solver|..];
    intros [-> ->]; done.
Qed.
End delete_queue.

(** ** The scanning loops of [weed_out_bigrams] *)

Section scan.
Import BigramCounter.
Implicit Types s : t.

Lemma weeded_iff s (t1 t2 : string) :
  weeded s t1 t2 ↔
  ∃ c b, count s t1 t2 = Some c ∧ created_bucket s t1 t2 = Some b
         ∧ c ≤ current_bucket_id s - b.
Proof.
  unfold weeded.
  destruct (count s t1 t2) as [c|], (created_bucket s t1 t2) as [b|];
    naive_solver.
Qed.

Lemma scan_subtree_elem s (t1 : string) items : ∀ q,
  scan_subtree s t1 items = Ok q →
  ∀ p, p ∈ q ↔
    ∃ t2 c b, p = (t1, t2) ∧ (t2, c) ∈ items
              ∧ created_bucket s t1 t2 = Some b
              ∧ c ≤ current_bucket_id s - b.
Proof.
  induction items as [|[t2 c] items IH]; intros q H p.
  - injection H as <-. split; [by intros ?%elem_of_nil|].
    by intros (? & ? & ? & _ & ?%elem_of_nil & _).
  - simpl in H. inv_bind H. injection H as <-.
    apply getitem2_Ok in Ha. specialize (IH _ Ha0 p).
    destruct (decide (c ≤ current_bucket_id s - a)) as [Hle|Hgt].
    + rewrite elem_of_cons, IH. split.
      * intros [->|(t2' & c' & b & -> & Hin & Hb & Hc)].
        -- exists t2, c, a. by rewrite elem_of_cons; auto.
        -- exists t2', c', b. by rewrite elem_of_cons; auto.
      * intros (t2' & c' & b & -> & [[= -> ->]|Hin]%elem_of_cons & Hb & Hc);
          [by left|right; eauto 10].
    + rewrite IH. split.
      * intros (t2' & c' & b & -> & Hin & Hb & Hc).
        exists t2', c', b. by rewrite elem_of_cons; auto.
      * intros (t2' & c' & b & -> & [[= -> ->]|Hin]%elem_of_cons & Hb & Hc);
          [|eauto 10].
        unfold created_bucket in Hb. rewrite Ha in Hb.
        injection Hb as <-. lia.
Qed.

Lemma scan_subtree_NoDup s (t1 : string) items : ∀ q,
  NoDup items.*1 → scan_subtree s t1 items = Ok q → NoDup q.
Proof.
  induction items as [|[t2 c] items IH]; intros q Hnd H.
  - injection H as <-. constructor.
  - simpl in H. inv_bind H. injection H as <-.
    rewrite fmap_cons in Hnd. apply NoDup_cons in Hnd as [Hnotin Hnd].
    specialize (IH _ Hnd Ha0). case_decide; [|done].
    apply NoDup_cons. split; [|done].
    intros Hin. eapply scan_subtree_elem in Hin; [|done].
    destruct Hin as (t2' & c' & b & [= <-] & Hin & _).
    apply Hnotin. apply list_elem_of_fmap. by exists (t2, c').
Qed.

Lemma scan_subtree_total s (t1 : string) items :
  (∀ t2 c, (t2, c) ∈ items → is_Some (created_bucket s t1 t2)) →
  is_Ok (scan_subtree s t1 items).
Proof.
  induction items as [|[t2 c] items IH]; intros Hall; [simpl; eauto|].
  destruct (Hall t2 c) as [b Hb]; [by left|].
  destruct IH as [q Hq]; [intros; eapply Hall; by right|].
  simpl. apply getitem2_Ok in Hb. rewrite Hb. simpl. rewrite Hq. simpl. eauto.
Qed.

Lemma scan_elem s items : ∀ q,
  scan s items = Ok q →
  ∀ p, p ∈ q ↔
    ∃ sub c b, (p.1, sub) ∈ items ∧ sub !! p.2 = Some c
               ∧ created_bucket s p.1 p.2 = Some b
               ∧ c ≤ current_bucket_id s - b.
Proof.
  induction items as [|[t1 sub] items IH]; intros q H p.
  - injection H as <-. split; [by intros ?%elem_of_nil|].
    by intros (? & ? & ? & ?%elem_of_nil & _).
  - simpl in H. inv_bind H. injection H as <-.
    rewrite elem_of_app, (IH _ Ha0 p), (scan_subtree_elem _ _ _ _ Ha p).
    split.
    + intros [(t2 & c & b & -> & Hin & Hb & Hc)
             |(sub' & c & b & Hin & Hs & Hb & Hc)].
      * exists sub, c, b. simpl. apply elem_of_map_to_list in Hin.
        by rewrite elem_of_cons; auto.
      * exists sub', c, b. by rewrite elem_of_cons; auto.
    + intros (sub' & c & b & [[= <- <-]|Hin]%elem_of_cons & Hs & Hb & Hc).
      * left. exists p.2, c, b. rewrite elem_of_map_to_list.
        by destruct p.
      * right. eauto 10.
Qed.

Lemma scan_NoDup s items : ∀ q,
  NoDup items.*1 → scan s items = Ok q → NoDup q.
Proof.
  induction items as [|[t1 sub] items IH]; intros q Hnd H.
  - injection H as <-. constructor.
  - simpl in H. inv_bind H. injection H as <-.
    rewrite fmap_cons in Hnd. apply NoDup_cons in Hnd as [Hnotin Hnd].
    apply NoDup_app. split; [|split; [|by eapply IH]].
    + eapply scan_subtree_NoDup; [|done]. apply NoDup_fst_map_to_list.
    + intros p Hp1 Hp2.
      eapply scan_subtree_elem in Hp1; [|done].
      eapply scan_elem in Hp2; [|done].
      destruct Hp1 as (t2 & _ & _ & -> & _).
      destruct Hp2 as (sub' & _ & _ & Hin & _). simpl in Hin.
      apply Hnotin. apply list_elem_of_fmap. by exists (t1, sub').
Qed.

Lemma scan_total s items :
  (∀ t1 sub t2 c, (t1, sub) ∈ items → sub !! t2 = Some c →
     is_Some (created_bucket s t1 t2)) →
  is_Ok (scan s items).
Proof.
  induction items as [|[t1 sub] items IH]; intros Hall; [simpl; eauto|].
  destruct (scan_subtree_total s t1 (map_to_list sub)) as [q1 Hq1].
  { intros t2 c Hin%elem_of_map_to_list. eapply Hall; [by left|done]. }
  destruct IH as [q Hq]; [intros; eapply Hall; [by right|done]|].
  simpl. rewrite Hq1. simpl. rewrite Hq. simpl. eauto.
Qed.

(** The queue holds exactly the entries that pass the test of line 136. *)
Lemma scan_bigrams s q :
  scan s (map_to_list (bigrams s)) = Ok q →
  NoDup q ∧ ∀ t1 t2, (t1, t2) ∈ q ↔ weeded s t1 t2.
Proof.
  intros H. split.
  - eapply scan_NoDup; [|done]. apply NoDup_fst_map_to_list.
  - intros t1 t2. rewrite (scan_elem _ _ _ H), weeded_iff. simpl.
    unfold count, lookup2.
    split.
    + intros (sub & c & b & Hin%elem_of_map_to_list & Hs & Hb & Hc).
      exists c, b. by rewrite Hin.
    + intros (c & b & Hc & Hb & Hle).
      destruct (bigrams s !! t1) as [sub|] eqn:E; [|done].
      exists sub, c, b. by rewrite elem_of_map_to_list.
Qed.

Lemma scan_bigrams_total s :
  synced s → is_Ok (scan s (map_to_list (bigrams s))).
Proof.
  intros Hs. apply scan_total.
  intros t1 sub t2 c Hin%elem_of_map_to_list Hc.
  apply Hs. unfold count, lookup2. rewrite Hin. simpl. eauto.
Qed.
End scan.

(** ** [weed_out_bigrams] *)

Section weed_out.
Import BigramCounter.
Implicit Types s : t.

(** What a weed-out that returns has done. *)
Lemma weed_out_bigrams_Ok s s' :
  weed_out_bigrams s = Ok s' →
  n s' = n s ∧ delta s' = delta s ∧ stopwords s' = stopwords s
  ∧ current_bucket_id s' = current_bucket_id s
  ∧ dom (bigrams s') = dom (bigrams s)
  ∧ dom (bucket_ids s') = dom (bucket_ids s)
  ∧ ∀ t1 t2,
      count s' t1 t2
      = (if decide (weeded s t1 t2) then None else count s t1 t2)
      ∧ created_bucket s' t1 t2
        = (if decide (weeded s t1 t2) then None else created_bucket s t1 t2).
Proof.
  unfold weed_out_bigrams. intros H. inv_bind H.
  destruct a0 as [bg ids]. injection H as <-. simpl.
  destruct (delete_queue_dom _ _ _ _ _ Ha0) as [-> ->].
  do 6 (split; [done|]). intros t1 t2.
  destruct (scan_bigrams _ _ Ha) as [_ Hq].
  destruct (delete_queue_lookup _ _ _ _ _ Ha0 t1 t2) as [H1 H2].
  unfold count, created_bucket. simpl. rewrite H1, H2.
  destruct (decide (weeded s t1 t2)) as [Hw|Hw].
  - rewrite !decide_True by by apply Hq. done.
  - rewrite !decide_False by by rewrite Hq. done.
Qed.

(** A weed-out of a synchronised pair of tables raises nothing. *)
Lemma weed_out_bigrams_total s : synced s → is_Ok (weed_out_bigrams s).
Proof.
  intros Hs. unfold weed_out_bigrams.
  destruct (scan_bigrams_total s Hs) as [q Hq]. rewrite Hq. simpl.
  destruct (scan_bigrams _ _ Hq) as [Hnd Hin].
  destruct (delete_queue_total q (bigrams s) (bucket_ids s) Hnd) as [[bg ids] Hd].
  { intros k1 k2 Hk. apply Hin, weeded_iff in Hk as (c & b & Hc & Hb & _).
    unfold count, created_bucket in *. rewrite Hc, Hb. eauto. }
  rewrite Hd. simpl. eauto.
Qed.

Lemma weed_out_bigrams_synced s s' :
  weed_out_bigrams s = Ok s' → synced s → synced s'.
Proof.
  intros H Hs t1 t2.
  destruct (weed_out_bigrams_Ok _ _ H) as (_ & _ & _ & _ & _ & _ & Hl).
  destruct (Hl t1 t2) as [-> ->]. case_decide; [|apply Hs].
  split; by intros [? ?].
Qed.
End weed_out.

(** ** [count_pair]: lines 114-120 of [add] *)

Section count_pair.
Import BigramCounter.
Implicit Types s : t.

Lemma count_pair_n s (t1 t2 : string) : n (count_pair s t1 t2) = n s + 1.
Proof. unfold count_pair. case_decide; [case_match|]; done. Qed.

Lemma count_pair_delta s (t1 t2 : string) :
  delta (count_pair s t1 t2) = delta s.
Proof. unfold count_pair. case_decide; [case_match|]; done. Qed.

Lemma count_pair_stopwords s (t1 t2 : string) :
  stopwords (count_pair s t1 t2) = stopwords s.
Proof. unfold count_pair. case_decide; [case_match|]; done. Qed.

Lemma count_pair_current_bucket_id s (t1 t2 : string) :
  current_bucket_id (count_pair s t1 t2) = current_bucket_id s.
Proof. unfold count_pair. case_decide; [case_match|]; done. Qed.

(** A pair with a stopword leaves both tables as they are. *)
Lemma count_pair_stopword s (t1 t2 : string) :
  t1 ∈ stopwords s ∨ t2 ∈ stopwords s →
  bigrams (count_pair s t1 t2) = bigrams s
  ∧ bucket_ids (count_pair s t1 t2) = bucket_ids s.
Proof. intros H. unfold count_pair. rewrite decide_False by tauto. done. Qed.

(** The entry of the observed pair after the counting step. *)
Lemma count_pair_count s (t1 t2 k1 k2 : string) :
  t1 ∉ stopwords s → t2 ∉ stopwords s →
  count (count_pair s t1 t2) k1 k2
  = if decide (t1 = k1 ∧ t2 = k2)
    then Some (default 0 (count s t1 t2) + 1)
    else count s k1 k2.
Proof.
  intros H1 H2. unfold count_pair. rewrite decide_True by done. cbv zeta.
  rewrite lookup2_default. unfold count.
  destruct (lookup2 (bigrams s) t1 t2) as [c|] eqn:E; simpl;
    by rewrite lookup2_insert.
Qed.

Lemma count_pair_created_bucket s (t1 t2 k1 k2 : string) :
  t1 ∉ stopwords s → t2 ∉ stopwords s →
  created_bucket (count_pair s t1 t2) k1 k2
  = if decide (t1 = k1 ∧ t2 = k2)
    then match count s t1 t2 with
         | Some _ => created_bucket s t1 t2
         | None => Some (current_bucket_id s - 1)
         end
    else created_bucket s k1 k2.
Proof.
  intros H1 H2. unfold count_pair. rewrite decide_True by done. cbv zeta.
  rewrite lookup2_default. unfold count, created_bucket.
  destruct (lookup2 (bigrams s) t1 t2) as [c|] eqn:E; simpl.
  - by case_decide as Hk; [destruct Hk as [-> ->]|].
  - by rewrite lookup2_insert.
Qed.

Lemma count_pair_synced s (t1 t2 : string) :
  synced s → synced (count_pair s t1 t2).
Proof.
  intros Hs k1 k2.
  destruct (decide ((t1 ∉ stopwords s) ∧ (t2 ∉ stopwords s))) as [[H1 H2]|Hsw].
  - rewrite count_pair_count, count_pair_created_bucket by done.
    case_decide as Hk; [|apply Hs]. destruct Hk as [<- <-].
    specialize (Hs t1 t2).
    destruct (count s t1 t2); simpl; [|by split; eauto].
    split; [intros _; apply Hs; eauto|eauto].
  - unfold synced, count, created_bucket.
    destruct (count_pair_stopword s t1 t2) as [-> ->]; [|apply Hs].
    destruct (decide (t1 ∈ stopwords s)); [tauto|].
    destruct (decide (t2 ∈ stopwords s)); tauto.
Qed.

(** The counting step never removes an outer key. *)
Lemma count_pair_dom s (t1 t2 : string) :
  dom (bigrams s) ⊆ dom (bigrams (count_pair s t1 t2)).
Proof.
  unfold count_pair. case_decide; [case_match|]; simpl; set_solver.
Qed.
End count_pair.

(** Passing from [a] to [a + 1] crosses a multiple of [w] exactly when
    [a + 1] is one. *)
Lemma div_succ_step (a w : Z) :
  0 < w →
  (a + 1) `div` w - a `div` w = if decide ((a + 1) `mod` w = 0) then 1 else 0.
Proof.
  intros Hw.
  pose proof (Z.div_mod a w ltac:(lia)) as E.
  pose proof (Z.mod_pos_bound a w Hw) as Hr.
  destruct (decide (a `mod` w + 1 < w)) as [Hlt|Hge].
  - assert ((a + 1) `div` w = a `div` w) as ->.
    { symmetry. apply (Z.div_unique_pos _ _ _ (a `mod` w + 1)); lia. }
    assert ((a + 1) `mod` w = a `mod` w + 1) as ->.
    { symmetry. apply (Z.mod_unique_pos _ _ (a `div` w)); lia. }
    rewrite decide_False by lia. lia.
  - assert ((a + 1) `div` w = a `div` w + 1) as ->.
    { symmetry. apply (Z.div_unique_pos _ _ _ 0); lia. }
    assert ((a + 1) `mod` w = 0) as ->.
    { symmetry. apply (Z.mod_unique_pos _ _ (a `div` w + 1)); lia. }
    rewrite decide_True by done. lia.
Qed.

(** ** [add] *)

Section add.
Import BigramCounter.
Implicit Types s : t.

Lemma is_boundary_of_bucket_Ok s b :
  is_boundary_of_bucket s = Ok b ↔
  ∃ w, width (delta s) = Ok w ∧ w ≠ 0 ∧ b = bool_decide (n s `mod` w = 0).
Proof.
  unfold is_boundary_of_bucket, Py.mod_. split.
  - intros H. inv_bind H. exists a. injection H as <-.
    case_decide; [done|]. by injection Ha0 as <-.
  - intros (w & -> & Hw & ->). simpl. by rewrite decide_False.
Qed.

Lemma move_next_bucket_Ok s s' :
  move_next_bucket s = Ok s' →
  n s' = n s ∧ delta s' = delta s ∧ stopwords s' = stopwords s
  ∧ current_bucket_id s' = current_bucket_id s + 1.
Proof.
  unfold move_next_bucket. intros H%weed_out_bigrams_Ok. simpl in H. tauto.
Qed.

(** [add] splits into the counting step and, at a bucket boundary, the
    move to the next bucket. *)
Lemma add_Ok s (t1 t2 : string) s' :
  add s t1 t2 = Ok s' ↔
  ∃ w, width (delta s) = Ok w ∧ w ≠ 0
       ∧ if decide ((n s + 1) `mod` w = 0)
         then move_next_bucket (count_pair s t1 t2) = Ok s'
         else s' = count_pair s t1 t2.
Proof.
  unfold add. cbv zeta. rewrite bind_Ok. split.
  - intros (b & (w & Hw & Hnz & ->)%is_boundary_of_bucket_Ok & H).
    rewrite count_pair_delta in Hw. rewrite count_pair_n in H.
    exists w. split; [done|split; [done|]].
    case_decide.
    + by rewrite bool_decide_eq_true_2 in H.
    + rewrite bool_decide_eq_false_2 in H by done. by injection H.
  - intros (w & Hw & Hnz & H).
    exists (bool_decide ((n s + 1) `mod` w = 0)). split.
    + apply is_boundary_of_bucket_Ok. exists w.
      by rewrite count_pair_delta, count_pair_n.
    + case_decide.
      * by rewrite bool_decide_eq_true_2.
      * rewrite bool_decide_eq_false_2 by done. by subst.
Qed.

Lemma move_next_bucket_synced s s' :
  move_next_bucket s = Ok s' → synced s → synced s'.
Proof.
  unfold move_next_bucket. intros H Hs.
  by eapply weed_out_bigrams_synced.
Qed.

Lemma move_next_bucket_total s : synced s → is_Ok (move_next_bucket s).
Proof. intros Hs. unfold move_next_bucket. by apply weed_out_bigrams_total. Qed.

Lemma add_fields s (t1 t2 : string) s' :
  add s t1 t2 = Ok s' →
  n s' = n s + 1 ∧ delta s' = delta s ∧ stopwords s' = stopwords s.
Proof.
  intros (w & _ & _ & H)%add_Ok. case_decide.
  - apply move_next_bucket_Ok in H as (-> & -> & -> & _).
    by rewrite count_pair_n, count_pair_delta, count_pair_stopwords.
  - subst. by rewrite count_pair_n, count_pair_delta, count_pair_stopwords.
Qed.

Lemma add_synced s (t1 t2 : string) s' :
  add s t1 t2 = Ok s' → synced s → synced s'.
Proof.
  intros (w & _ & _ & H)%add_Ok Hs. case_decide.
  - eapply move_next_bucket_synced; [done|]. by apply count_pair_synced.
  - subst. by apply count_pair_synced.
Qed.

(** With synchronised tables and a non-zero window width, [add] returns. *)
Lemma add_total s (t1 t2 : string) w :
  synced s → width (delta s) = Ok w → w ≠ 0 → is_Ok (add s t1 t2).
Proof.
  intros Hs Hw Hnz.
  destruct (decide ((n s + 1) `mod` w = 0)) as [Hb|Hb].
  - destruct (move_next_bucket_total (count_pair s t1 t2)) as [s' Hs'];
      [by apply count_pair_synced|].
    exists s'. apply add_Ok. exists w. by rewrite decide_True.
  - exists (count_pair s t1 t2). apply add_Ok. exists w.
    by rewrite decide_False.
Qed.

Lemma init_synced d sw : synced (init d sw).
Proof. intros t1 t2. unfold count, created_bucket. simpl. done. Qed.

Lemma add_all_app s (l1 l2 : list (string * string)) :
  add_all s (l1 ++ l2) = add_all s l1 ≫= λ s1, add_all s1 l2.
Proof.
  revert s. induction l1 as [|[t1 t2] l1 IH]; intros s; [done|].
  simpl. destruct (add s t1 t2); [apply IH|done].
Qed.

Lemma add_all_fields (pairs : list (string * string)) : ∀ s s',
  add_all s pairs = Ok s' →
  n s' = n s + Z.of_nat (length pairs) ∧ delta s' = delta s
  ∧ stopwords s' = stopwords s ∧ (synced s → synced s').
Proof.
  induction pairs as [|[t1 t2] pairs IH]; intros s s' H.
  - injection H as <-. simpl. split; [lia|done].
  - simpl in H. inv_bind H.
    destruct (add_fields _ _ _ _ Ha) as (Hn & Hd & Hsw).
    destruct (IH _ _ H) as (-> & -> & -> & Hsy).
    rewrite Hn, Hd, Hsw. simpl length.
    split; [lia|]. do 2 (split; [done|]).
    intros Hs. apply Hsy. by eapply add_synced.
Qed.

(** Streaming raises nothing when the window width is a non-zero integer. *)
Lemma add_all_total (pairs : list (string * string)) : ∀ s w,
  synced s → width (delta s) = Ok w → w ≠ 0 → is_Ok (add_all s pairs).
Proof.
  induction pairs as [|[t1 t2] pairs IH]; intros s w Hs Hw Hnz; [simpl; eauto|].
  destruct (add_total s t1 t2 w Hs Hw Hnz) as [s1 H1].
  simpl. rewrite H1. simpl.
  destruct (add_fields _ _ _ _ H1) as (_ & Hd & _).
  apply (IH s1 w); [by eapply add_synced|by rewrite Hd|done].
Qed.

(** With a zero or undefined window width the first [add] raises. *)
Lemma add_raises s (t1 t2 : string) :
  (width (delta s) = Ok 0 ∨ ¬ is_Ok (width (delta s))) →
  ¬ is_Ok (add s t1 t2).
Proof.
  intros Hw [s' (w & Hw' & Hnz & _)%add_Ok].
  destruct Hw as [Hw|Hw].
  - congruence.
  - apply Hw. by exists w.
Qed.

(** The bucket id after one [add]. *)
Lemma add_current_bucket_id s (t1 t2 : string) s' w :
  add s t1 t2 = Ok s' → width (delta s) = Ok w →
  current_bucket_id s'
  = current_bucket_id s + (if decide ((n s + 1) `mod` w = 0) then 1 else 0).
Proof.
  intros (w' & Hw' & _ & H)%add_Ok Hw.
  assert (w' = w) as -> by congruence.
  case_decide.
  - apply move_next_bucket_Ok in H as (_ & _ & _ & ->).
    by rewrite count_pair_current_bucket_id.
  - subst. rewrite count_pair_current_bucket_id. lia.
Qed.

(** With a positive window width [w], the bucket id grows by the number of
    multiples of [w] passed by [n]. *)
Lemma add_all_current_bucket_id (pairs : list (string * string)) : ∀ s s' w,
  add_all s pairs = Ok s' → width (delta s) = Ok w → 0 < w →
  current_bucket_id s' - current_bucket_id s
  = (n s + Z.of_nat (length pairs)) `div` w - n s `div` w.
Proof.
  induction pairs as [|[t1 t2] pairs IH]; intros s s' w H Hw Hpos.
  - injection H as <-. cbn [length Z.of_nat]. rewrite Z.add_0_r. lia.
  - simpl in H. inv_bind H.
    destruct (add_fields _ _ _ _ Ha) as (Hn & Hd & _).
    pose proof (add_current_bucket_id _ _ _ _ _ Ha Hw) as Hc.
    rewrite <- Hd in Hw. specialize (IH _ _ _ H Hw Hpos).
    rewrite Hn in IH. simpl length.
    replace (n s + Z.of_nat (S (length pairs)))
      with (n s + 1 + Z.of_nat (length pairs)) by lia.
    pose proof (div_succ_step (n s) w Hpos) as Hstep.
    lia.
Qed.
End add.

(** ** Counts never exceed true frequencies *)

Section frequency.
Import BigramCounter.
Implicit Types s : t.
Implicit Types stream pre : list (string * string).

Lemma frequency_nonneg p stream : 0 ≤ frequency p stream.
Proof. unfold frequency. lia. Qed.

Lemma frequency_snoc p stream q :
  frequency p (stream ++ [q])
  = frequency p stream + (if decide (q = p) then 1 else 0).
Proof.
  unfold frequency. rewrite filter_app, length_app.
  rewrite filter_cons, filter_nil. case_decide; simpl; lia.
Qed.

Lemma count_pair_sound s pre (t1 t2 : string) :
  sound s pre → sound (count_pair s t1 t2) (pre ++ [(t1, t2)]).
Proof.
  intros Hs k1 k2 c. rewrite count_pair_stopwords, frequency_snoc.
  destruct (decide ((t1 ∉ stopwords s) ∧ (t2 ∉ stopwords s))) as [[H1 H2]|Hsw].
  - rewrite count_pair_count by done.
    destruct (decide (t1 = k1 ∧ t2 = k2)) as [[<- <-]|Hne].
    + intros [= <-]. rewrite decide_True by done.
      destruct (count s t1 t2) as [c|] eqn:E; simpl.
      * destruct (Hs _ _ _ E) as [? _]. split; [lia|done].
      * pose proof (frequency_nonneg (t1, t2) pre). split; [lia|done].
    + intros Hc. destruct (Hs _ _ _ Hc) as [? ?].
      split; [|done]. case_decide; lia.
  - unfold count.
    destruct (count_pair_stopword s t1 t2) as [-> _].
    { destruct (decide (t1 ∈ stopwords s)); [tauto|].
      destruct (decide (t2 ∈ stopwords s)); tauto. }
    intros Hc. destruct (Hs _ _ _ Hc) as [? ?].
    split; [|done]. case_decide; lia.
Qed.

Lemma move_next_bucket_sound s s' pre :
  move_next_bucket s = Ok s' → sound s pre → sound s' pre.
Proof.
  unfold move_next_bucket.
  intros (_ & _ & Hsw & _ & _ & _ & Hl)%weed_out_bigrams_Ok Hs t1 t2 c Hc.
  destruct (Hl t1 t2) as [Hl1 _]. rewrite Hc in Hl1.
  case_decide; [done|]. rewrite Hsw. simpl. by apply Hs.
Qed.

Lemma add_sound s s' pre (t1 t2 : string) :
  add s t1 t2 = Ok s' → sound s pre → sound s' (pre ++ [(t1, t2)]).
Proof.
  intros (w & _ & _ & H)%add_Ok Hs. case_decide.
  - eapply move_next_bucket_sound; [done|]. by apply count_pair_sound.
  - subst. by apply count_pair_sound.
Qed.

Lemma add_all_sound stream : ∀ s s' pre,
  add_all s stream = Ok s' → sound s pre → sound s' (pre ++ stream).
Proof.
  induction stream as [|[t1 t2] stream IH]; intros s s' pre H Hs.
  - injection H as <-. by rewrite app_nil_r.
  - simpl in H. inv_bind H.
    rewrite (assoc_L _ pre [(t1, t2)] stream : pre ++ (t1, t2) :: stream = _).
    eapply IH; [done|]. by eapply add_sound.
Qed.

Lemma init_sound d sw : sound (init d sw) [].
Proof. intros t1 t2 c. unfold count. simpl. done. Qed.
End frequency.

(** ** The claims about [BigramCounter] *)

Import BigramCounter.

(** C1 (the code at a failing input): with [delta = 0.5], so
    [delta * N = 2] after [N = 4] pairs, and no stopword, the pair (a,b)
    occurs three times in the stream (a,b), (a,b), (c,d), (a,b) and has no
    entry at the end: the presence half of the Lossy Counting guarantee
    does not hold for this run. The bucket id is advanced before the
    weed-out test is evaluated, which deletes (a,b) at [n = 2] and again at
    [n = 4]. *)
Theorem C1_presence_fails :
  match add_all (init f_0_5 []) scenario_stream with
  | Ok s =>
      float_value f_0_5 = Some (1 # 2)%Q
      ∧ n s = Z.of_nat (length scenario_stream)
      ∧ frequency ("a", "b")%string scenario_stream = 3
      ∧ ((1 # 2) * inject_Z (n s) < inject_Z 3)%Q
      ∧ count s "a" "b" = None
  | Raise _ => False
  end
  ∧ ¬ lossy_counting_guarantee f_0_5 [] scenario_stream.
Proof.
  split; [by vm_compute|].
  intros (s & d & Hs & Hd & _ & Hpresent).
  injection Hd as <-. vm_compute in Hs. injection Hs as <-.
  destruct (Hpresent "a" "b")%string as [c Hc]; [done|].
  vm_compute in Hc. discriminate.
Qed.

(** X14: the count half of the Lossy Counting guarantee. For every [delta]
    whose window width [int(1/delta)] is a non-zero integer, every stopword
    list and every stream, the counter processes the whole stream, and every
    entry then present has a count between 1 and the number of occurrences
    of its pair in the stream, and neither of its tokens is a stopword. *)
Theorem count_le_frequency (d : spec_float) (w : Z) (sw : list string)
    (stream : list (string * string)) :
  width d = Ok w → w ≠ 0 →
  ∃ s, add_all (init d sw) stream = Ok s
       ∧ ∀ t1 t2 c, count s t1 t2 = Some c →
           1 ≤ c ≤ frequency (t1, t2) stream ∧ t1 ∉ sw ∧ t2 ∉ sw.
Proof.
  intros Hw Hnz.
  destruct (add_all_total stream (init d sw) w) as [s Hs];
    [apply init_synced|done|done|].
  exists s. split; [done|].
  pose proof (add_all_sound _ _ _ [] Hs (init_sound d sw)) as Hsound.
  destruct (add_all_fields _ _ _ Hs) as (_ & _ & Hsw & _).
  intros t1 t2 c Hc. specialize (Hsound _ _ _ Hc).
  by rewrite Hsw in Hsound.
Qed.

Lemma count_le_frequency_witness :
  ∃ s, add_all (init f_0_5 ["the"%string]) scenario_stream = Ok s
       ∧ ∀ t1 t2 c, count s t1 t2 = Some c →
           1 ≤ c ≤ frequency (t1, t2) scenario_stream
           ∧ t1 ∉ ["the"%string] ∧ t2 ∉ ["the"%string].
Proof.
  apply (count_le_frequency f_0_5 2); [reflexivity|lia].
Defined.

(** C2 (the code at the scenario): with [delta = 0.5] the window width is 2,
    and after the four pairs (a,b), (a,b), (c,d), (a,b) neither (a,b) nor
    (c,d) has an entry: (a,b) is weeded out at [n = 2] with count 2 and
    again at [n = 4] with count 1. *)
Theorem C2_scenario_ab_absent :
  width f_0_5 = Ok 2
  ∧ match add_all (init f_0_5 []) scenario_stream with
    | Ok s =>
        n s = 4 ∧ current_bucket_id s = 3
        ∧ count s "a" "b" = None ∧ count s "c" "d" = None
    | Raise _ => False
    end.
Proof. vm_compute. done. Qed.

(** The same stream cut after two pairs: (a,b) has count 2 before the first
    boundary and is deleted at it. *)
Example scenario_after_two :
  count (count_pair (count_pair (init f_0_5 []) "a" "b") "a" "b") "a" "b"
  = Some 2
  ∧ match add_all (init f_0_5 []) (take 2 scenario_stream) with
    | Ok s => count s "a" "b" = None ∧ bigrams s !! "a"%string = Some ∅
    | Raise _ => False
    end.
Proof. vm_compute. done. Qed.

(** C3: weed-out rule. For a counter with synchronised tables and a
    non-zero window width [w], [add] returns; when the new value of [n] is a
    multiple of [w], the bucket id advances by one and then exactly the
    entries with [count ≤ current_bucket_id - created_bucket] (for the
    advanced id) are deleted, every other entry staying as the counting
    step left it; when it is not, the bucket id is unchanged and nothing is
    deleted. *)
Theorem C3_weed_out_rule (s : t) (t1 t2 : string) (w : Z) :
  synced s → width (delta s) = Ok w → w ≠ 0 →
  ∃ s', add s t1 t2 = Ok s'
    ∧ let s1 := count_pair s t1 t2 in
      if decide (n s1 `mod` w = 0) then
        current_bucket_id s' = current_bucket_id s + 1
        ∧ (∀ k1 k2 c b,
             count s1 k1 k2 = Some c → created_bucket s1 k1 k2 = Some b →
             if decide (c ≤ current_bucket_id s' - b)
             then count s' k1 k2 = None ∧ created_bucket s' k1 k2 = None
             else count s' k1 k2 = Some c ∧ created_bucket s' k1 k2 = Some b)
        ∧ (∀ k1 k2, count s1 k1 k2 = None → count s' k1 k2 = None)
      else s' = s1.
Proof.
  intros Hs Hw Hnz. destruct (add_total s t1 t2 w Hs Hw Hnz) as [s' Hadd].
  exists s'. split; [done|]. cbv zeta. rewrite count_pair_n.
  apply add_Ok in Hadd as (w' & Hw' & _ & H).
  assert (w' = w) as -> by congruence.
  case_decide; [|done].
  unfold move_next_bucket in H.
  apply weed_out_bigrams_Ok in H as (_ & _ & _ & Hc & _ & _ & Hl).
  simpl in Hc. rewrite count_pair_current_bucket_id in Hc.
  split; [done|]. split.
  - intros k1 k2 c b Hcount Hcreated. destruct (Hl k1 k2) as [-> ->].
    rewrite Hc.
    destruct (decide (weeded _ k1 k2)) as [Hwd|Hwd].
    + apply weeded_iff in Hwd as (c' & b' & Hc' & Hb' & Hle).
      unfold count, created_bucket in *. simpl in *.
      assert (c' = c) as -> by congruence.
      assert (b' = b) as -> by congruence.
      rewrite count_pair_current_bucket_id in Hle. by rewrite decide_True.
    + rewrite decide_False; [done|].
      intros Hle. apply Hwd, weeded_iff. exists c, b.
      unfold count, created_bucket in *. simpl.
      by rewrite count_pair_current_bucket_id.
  - intros k1 k2 Hnone. destruct (Hl k1 k2) as [-> _].
    case_decide; [done|]. unfold count in *. by simpl.
Qed.

Lemma C3_weed_out_rule_witness :
  ∃ s', add (count_pair (init f_0_5 []) "a" "b") "a" "b" = Ok s'
    ∧ let s1 := count_pair (count_pair (init f_0_5 []) "a" "b") "a" "b" in
      if decide (n s1 `mod` 2 = 0) then
        current_bucket_id s'
        = current_bucket_id (count_pair (init f_0_5 []) "a" "b") + 1
        ∧ (∀ k1 k2 c b,
             count s1 k1 k2 = Some c → created_bucket s1 k1 k2 = Some b →
             if decide (c ≤ current_bucket_id s' - b)
             then count s' k1 k2 = None ∧ created_bucket s' k1 k2 = None
             else count s' k1 k2 = Some c ∧ created_bucket s' k1 k2 = Some b)
        ∧ (∀ k1 k2, count s1 k1 k2 = None → count s' k1 k2 = None)
      else s' = s1.
Proof.
  apply (C3_weed_out_rule (count_pair (init f_0_5 []) "a" "b") "a" "b" 2).
  - apply count_pair_synced, init_synced.
  - reflexivity.
  - lia.
Defined.

(** C4: the counting step of [add] for a pair without stopword. An existing
    entry has its count incremented by exactly one and keeps its creation
    bucket; otherwise a new entry is created with count 1 and creation
    bucket [current_bucket_id - 1]. No other entry changes, and when the
    new [n] is not a multiple of the (non-zero) window width this is the
    state [add] returns. *)
Theorem C4_observe_semantics (s : t) (t1 t2 : string) :
  t1 ∉ stopwords s → t2 ∉ stopwords s →
  let s1 := count_pair s t1 t2 in
  match count s t1 t2 with
  | Some c =>
      count s1 t1 t2 = Some (c + 1)
      ∧ created_bucket s1 t1 t2 = created_bucket s t1 t2
  | None =>
      count s1 t1 t2 = Some 1
      ∧ created_bucket s1 t1 t2 = Some (current_bucket_id s - 1)
  end
  ∧ (∀ k1 k2, (k1, k2) ≠ (t1, t2) →
       count s1 k1 k2 = count s k1 k2
       ∧ created_bucket s1 k1 k2 = created_bucket s k1 k2)
  ∧ (∀ w, width (delta s) = Ok w → w ≠ 0 → (n s + 1) `mod` w ≠ 0 →
       add s t1 t2 = Ok s1).
Proof.
  intros H1 H2. cbv zeta. split; [|split].
  - rewrite count_pair_count, count_pair_created_bucket by done.
    rewrite !decide_True by done. by destruct (count s t1 t2).
  - intros k1 k2 Hne.
    rewrite count_pair_count, count_pair_created_bucket by done.
    rewrite !decide_False; [done|..]; intros [-> ->]; done.
  - intros w Hw Hnz Hm. apply add_Ok. exists w.
    by rewrite decide_False.
Qed.

Lemma C4_observe_semantics_witness :
  let s := count_pair (init f_5e_3 ["the"%string]) "a" "b" in
  let s1 := count_pair s "a" "b" in
  match count s "a" "b" with
  | Some c =>
      count s1 "a" "b" = Some (c + 1)
      ∧ created_bucket s1 "a" "b" = created_bucket s "a" "b"
  | None =>
      count s1 "a" "b" = Some 1
      ∧ created_bucket s1 "a" "b" = Some (current_bucket_id s - 1)
  end
  ∧ (∀ k1 k2, (k1, k2) ≠ ("a", "b")%string →
       count s1 k1 k2 = count s k1 k2
       ∧ created_bucket s1 k1 k2 = created_bucket s k1 k2)
  ∧ (∀ w, width (delta s) = Ok w → w ≠ 0 → (n s + 1) `mod` w ≠ 0 →
       add s "a" "b" = Ok s1).
Proof.
  apply (C4_observe_semantics
           (count_pair (init f_5e_3 ["the"%string]) "a" "b") "a" "b");
    vm_compute; by intros [[=]|[]%elem_of_nil]%elem_of_cons.
Defined.

(** C5 (as stated, refuted): with [w = ceil(1/delta)] the bucket id is not
    [1 + k] after [k * w] pairs. For [delta = 0.75] the specification's
    width is 2 while the code's [int(1/delta)] is 1: after [1 * 2] pairs the
    bucket id is 3, not 2. *)
Lemma C5_ceil_width_fails :
  ¬ (∀ (d : spec_float) (w k : Z) (stream : list (string * string)) (s : t),
       in_unit_interval d → spec_width d = Some w → 0 ≤ k →
       Z.of_nat (length stream) = k * w →
       add_all (init d []) stream = Ok s →
       current_bucket_id s = current_bucket_id (init d []) + k).
Proof.
  intros H.
  specialize (H f_0_75 2 1 [("a", "b"); ("a", "b")]%string).
  destruct (add_all (init f_0_75 []) [("a", "b"); ("a", "b")]%string)
    as [s|] eqn:E; [|by vm_compute in E].
  specialize (H s). vm_compute in E. injection E as <-.
  assert (3 = 1 + 1) as Habs; [|lia].
  apply H; try done.
  exists (3 # 4)%Q. by vm_compute.
Qed.

(** C5 (amended): for every [delta] whose truncated reciprocal
    [w = int(1/delta)] is a positive integer, and every [k ≥ 0], the counter
    processes any [k * w] pairs and its bucket id is then the initial id
    plus [k]. *)
Theorem C5_bucket_advancement (d : spec_float) (w k : Z) (sw : list string)
    (stream : list (string * string)) :
  width d = Ok w → 0 < w → Z.of_nat (length stream) = k * w →
  ∃ s, add_all (init d sw) stream = Ok s
       ∧ current_bucket_id s = current_bucket_id (init d sw) + k.
Proof.
  intros Hw Hpos Hlen.
  destruct (add_all_total stream (init d sw) w) as [s Hs];
    [apply init_synced|done|lia|].
  exists s. split; [done|].
  pose proof (add_all_current_bucket_id _ _ _ _ Hs Hw Hpos) as H.
  change (n (init d sw)) with 0 in H.
  rewrite Z.add_0_l, Hlen, Z.div_mul, Zdiv_0_l in H by lia. lia.
Qed.

Lemma C5_bucket_advancement_witness :
  ∃ s, add_all (init f_0_5 []) scenario_stream = Ok s
       ∧ current_bucket_id s = current_bucket_id (init f_0_5 []) + 2.
Proof.
  apply (C5_bucket_advancement f_0_5 2 2 [] scenario_stream);
    [reflexivity|lia|reflexivity].
Defined.

(** C6: stopword exclusion. A call [add s t1 t2] in which [t1] or [t2] is a
    stopword returns (given synchronised tables and a non-zero window
    width), adds one to [n], advances the bucket id exactly when the new
    [n] is a multiple of the width, leaves both tables untouched before the
    boundary test, and neither creates nor increments the entry of
    [(t1, t2)]: any entry it has afterwards is the one it had before. Over a
    whole run from a fresh counter, [n] is the number of calls and no pair
    with a stopword ever has an entry. *)
Theorem C6_stopword_exclusion :
  (∀ (s : t) (t1 t2 : string) (w : Z),
     synced s → width (delta s) = Ok w → w ≠ 0 →
     t1 ∈ stopwords s ∨ t2 ∈ stopwords s →
     ∃ s', add s t1 t2 = Ok s'
       ∧ n s' = n s + 1
       ∧ current_bucket_id s'
         = current_bucket_id s
           + (if decide ((n s + 1) `mod` w = 0) then 1 else 0)
       ∧ bigrams (count_pair s t1 t2) = bigrams s
       ∧ bucket_ids (count_pair s t1 t2) = bucket_ids s
       ∧ ∀ k1 k2 c, count s' k1 k2 = Some c → count s k1 k2 = Some c)
  ∧ (∀ (d : spec_float) (w : Z) (sw : list string)
       (stream : list (string * string)),
       width d = Ok w → w ≠ 0 →
       ∃ s, add_all (init d sw) stream = Ok s
         ∧ n s = Z.of_nat (length stream)
         ∧ ∀ t1 t2, t1 ∈ sw ∨ t2 ∈ sw → count s t1 t2 = None).
Proof.
  split.
  - intros s t1 t2 w Hs Hw Hnz Hsw.
    destruct (add_total s t1 t2 w Hs Hw Hnz) as [s' Hadd].
    exists s'. split; [done|].
    destruct (add_fields _ _ _ _ Hadd) as (Hn & _ & _).
    split; [done|]. split; [by eapply add_current_bucket_id|].
    destruct (count_pair_stopword s t1 t2 Hsw) as [Hbg Hids].
    do 2 (split; [done|]).
    intros k1 k2 c Hc.
    apply add_Ok in Hadd as (w' & _ & _ & H).
    case_decide.
    + unfold move_next_bucket in H.
      apply weed_out_bigrams_Ok in H as (_ & _ & _ & _ & _ & _ & Hl).
      destruct (Hl k1 k2) as [Hl1 _]. rewrite Hc in Hl1.
      case_decide; [done|]. unfold count in *. simpl in Hl1.
      by rewrite Hbg in Hl1.
    + subst. unfold count in *. by rewrite Hbg in Hc.
  - intros d w sw stream Hw Hnz.
    destruct (add_all_total stream (init d sw) w) as [s Hs];
      [apply init_synced|done|done|].
    exists s. split; [done|].
    destruct (add_all_fields _ _ _ Hs) as (Hn & _ & Hsw & _).
    split; [by rewrite Hn|].
    pose proof (add_all_sound _ _ _ [] Hs (init_sound d sw)) as Hsound.
    intros t1 t2 Hst.
    destruct (count s t1 t2) as [c|] eqn:Hc; [|done].
    destruct (Hsound _ _ _ Hc) as (_ & H1 & H2).
    rewrite Hsw in H1, H2. simpl in H1, H2. tauto.
Qed.

Lemma C6_stopword_exclusion_witness :
  (∃ s', add (init f_0_5 ["the"%string]) "the" "cat" = Ok s'
     ∧ n s' = n (init f_0_5 ["the"%string]) + 1)
  ∧ (∃ s, add_all (init f_0_5 ["the"%string])
            [("the", "cat"); ("the", "cat")]%string = Ok s
       ∧ n s = 2
       ∧ count s "the" "cat" = None).
Proof.
  destruct C6_stopword_exclusion as [Hstep Hrun]. split.
  - destruct (Hstep (init f_0_5 ["the"%string]) "the" "cat" 2)%string
      as (s' & Hadd & Hn & _).
    + apply init_synced.
    + reflexivity.
    + lia.
    + left. simpl. by left.
    + by exists s'.
  - destruct (Hrun f_0_5 2 ["the"%string]
                [("the", "cat"); ("the", "cat")]%string)
      as (s & Hs & Hn & Hnone); [reflexivity|lia|].
    exists s. split; [done|]. split; [done|].
    apply Hnone. left. by left.
Defined.

(** C8 (as stated, refuted): [delta = 2.0] lies outside (0,1), yet the
    constructor returns a counter holding that very [delta]; the error
    appears only when the first pair is added. *)
Lemma C8_no_validation :
  ¬ in_unit_interval f_2_0
  ∧ delta (init f_2_0 []) = f_2_0
  ∧ add (init f_2_0 []) "a" "b" = Raise ZeroDivisionError.
Proof.
  split; [|by vm_compute].
  intros (q & [= <-] & _ & Hlt). by vm_compute in Hlt.
Qed.

(** C8 (amended): the constructor accepts every [delta] and stores it
    unchanged, with empty tables, [n = 0] and bucket id 1. If
    [int(1/delta)] is a non-zero integer, no call of [add] raises, whatever
    the stream; if it is zero or undefined, the first [add] raises. *)
Theorem C8_construction_and_streaming (d : spec_float) (sw : list string) :
  (delta (init d sw) = d ∧ stopwords (init d sw) = sw
   ∧ n (init d sw) = 0 ∧ current_bucket_id (init d sw) = 1
   ∧ bigrams (init d sw) = ∅ ∧ bucket_ids (init d sw) = ∅)
  ∧ (∀ w stream, width d = Ok w → w ≠ 0 →
       is_Ok (add_all (init d sw) stream))
  ∧ (∀ t1 t2, width d = Ok 0 ∨ ¬ is_Ok (width d) →
       ¬ is_Ok (add (init d sw) t1 t2)).
Proof.
  split; [done|]. split.
  - intros w stream Hw Hnz.
    by apply (add_all_total stream (init d sw) w); [apply init_synced|..].
  - intros t1 t2 Hw. by apply add_raises.
Qed.

Lemma C8_construction_and_streaming_witness :
  is_Ok (add_all (init f_5e_3 []) scenario_stream)
  ∧ ¬ is_Ok (add (init f_2_0 []) "a" "b").
Proof.
  split.
  - apply (C8_construction_and_streaming f_5e_3 []) with (w := 200);
      [reflexivity|lia].
  - apply (C8_construction_and_streaming f_2_0 []). left. reflexivity.
Defined.

(** The smallest positive float lies in (0,1), but its reciprocal overflows
    and [int] raises: a non-zero width is more than membership in (0,1). *)
Example width_tiny_delta :
  in_unit_interval (S754_finite false 1 (-1074))
  ∧ width (S754_finite false 1 (-1074)) = Raise OverflowError.
Proof.
  split; [|by vm_compute].
  eexists. split; [reflexivity|]. split; by vm_compute.
Qed.

(** ** [Counter] *)

Section counter.
Implicit Types c u other : gmap string Z.
Implicit Types tok : string.
Implicit Types tokens : list string.

Lemma occurrences_nonneg tok tokens : 0 ≤ occurrences tok tokens.
Proof. unfold occurrences. lia. Qed.

Lemma occurrences_cons tok x tokens :
  occurrences tok (x :: tokens)
  = (if decide (x = tok) then 1 else 0) + occurrences tok tokens.
Proof.
  unfold occurrences. rewrite filter_cons. case_decide; simpl length; lia.
Qed.

Lemma occurrences_app tok tokens tokens' :
  occurrences tok (tokens ++ tokens')
  = occurrences tok tokens + occurrences tok tokens'.
Proof. unfold occurrences. rewrite filter_app, length_app. lia. Qed.

Lemma get_insert c tok v x :
  Counter.get (<[tok := v]> c) x
  = if decide (tok = x) then v else Counter.get c x.
Proof.
  unfold Counter.get. case_decide as H.
  - subst. by rewrite lookup_insert_eq.
  - by rewrite lookup_insert_ne.
Qed.

(** Sums of values do not depend on the order of the items. *)
Lemma foldl_add_foldr (l : list Z) (a : Z) :
  foldl Z.add a l = a + foldr Z.add 0 l.
Proof.
  revert a. induction l as [|x l IH]; intros a; simpl; [lia|].
  rewrite IH. lia.
Qed.

Lemma foldr_add_perm (l1 l2 : list Z) :
  l1 ≡ₚ l2 → foldr Z.add 0 l1 = foldr Z.add 0 l2.
Proof. induction 1; simpl; lia. Qed.

Lemma total_foldr c :
  Counter.total c = foldr Z.add 0 (map_to_list c).*2.
Proof. unfold Counter.total. rewrite foldl_add_foldr. lia. Qed.

Lemma total_empty : Counter.total ∅ = 0.
Proof. unfold Counter.total. by rewrite map_to_list_empty. Qed.

Lemma total_insert_fresh c tok v :
  c !! tok = None → Counter.total (<[tok := v]> c) = v + Counter.total c.
Proof.
  intros H. unfold Counter.total. rewrite !foldl_add_foldr.
  rewrite (foldr_add_perm _ (v :: (map_to_list c).*2)); [simpl; lia|].
  by rewrite (map_to_list_insert c tok v H).
Qed.

(** Overwriting a count changes the total by the difference. *)
Lemma total_insert c tok v :
  Counter.total (<[tok := v]> c) = Counter.total c - Counter.get c tok + v.
Proof.
  unfold Counter.get. destruct (c !! tok) as [v0|] eqn:E; simpl.
  - rewrite <- (insert_delete_eq c tok v).
    rewrite total_insert_fresh by apply lookup_delete_eq.
    rewrite <- (insert_delete_id c tok v0 E) at 2.
    rewrite total_insert_fresh by apply lookup_delete_eq. lia.
  - rewrite total_insert_fresh by done. lia.
Qed.

(** [Counter(tokens)], as a loop from any starting table. *)
Lemma of_tokens_fold tokens : ∀ c,
  let c' := foldl (λ c tok, <[tok := Counter.get c tok + 1]> c) c tokens in
  (∀ tok, Counter.get c' tok = Counter.get c tok + occurrences tok tokens)
  ∧ Counter.total c' = Counter.total c + Z.of_nat (length tokens).
Proof.
  induction tokens as [|x tokens IH]; intros c; cbv zeta.
  - simpl. split; [intros tok; unfold occurrences; simpl; lia|lia].
  - simpl foldl. destruct (IH (<[x := Counter.get c x + 1]> c)) as [Hg Ht].
    split.
    + intros tok. rewrite Hg, get_insert, occurrences_cons.
      case_decide; subst; lia.
    + rewrite Ht, total_insert. simpl length. lia.
Qed.

Lemma of_tokens_get tokens tok :
  Counter.get (Counter.of_tokens tokens) tok = occurrences tok tokens.
Proof.
  destruct (of_tokens_fold tokens ∅) as [H _]. unfold Counter.of_tokens.
  rewrite H. unfold Counter.get. by rewrite lookup_empty.
Qed.

Lemma of_tokens_total tokens :
  Counter.total (Counter.of_tokens tokens) = Z.of_nat (length tokens).
Proof.
  destruct (of_tokens_fold tokens ∅) as [_ H]. unfold Counter.of_tokens.
  rewrite H, total_empty. lia.
Qed.

(** The first loop of [__iadd__] over a list of items. *)
Lemma iadd_fold (items : list (string * Z)) : ∀ c,
  let c' := foldl (λ c kv, <[kv.1 := Counter.get c kv.1 + kv.2]> c) c items in
  (∀ tok, Counter.get c' tok
          = Counter.get c tok
            + foldr Z.add 0 ((filter (λ kv, kv.1 = tok) items).*2))
  ∧ Counter.total c' = Counter.total c + foldr Z.add 0 items.*2.
Proof.
  induction items as [|[k v] items IH]; intros c; cbv zeta.
  - split; [intros tok; rewrite filter_nil; simpl; lia|simpl; lia].
  - simpl foldl.
    destruct (IH (<[k := Counter.get c k + v]> c)) as [Hg Ht]. split.
    + intros tok. rewrite Hg, get_insert, filter_cons.
      destruct (decide (k = tok)) as [->|Hne].
      * rewrite decide_True by done. rewrite fmap_cons.
        cbn [foldr snd]. lia.
      * rewrite decide_False by done. lia.
    + rewrite Ht, total_insert. csimpl. lia.
Qed.

(** The items of a dictionary hold each key once. *)
Lemma items_sum_get other tok :
  foldr Z.add 0 ((filter (λ kv, kv.1 = tok) (map_to_list other)).*2)
  = Counter.get other tok.
Proof.
  unfold Counter.get.
  rewrite <- (list_to_map_to_list other) at 2.
  pose proof (NoDup_fst_map_to_list other) as Hnd.
  induction (map_to_list other) as [|[k v] items IH]; [done|].
  rewrite fmap_cons in Hnd. apply NoDup_cons in Hnd as [Hnotin Hnd].
  rewrite filter_cons, list_to_map_cons.
  destruct (decide (k = tok)) as [->|Hne].
  - rewrite decide_True by done.
    rewrite fmap_cons, lookup_insert_eq. cbn [foldr snd default].
    rewrite IH by done.
    rewrite (not_elem_of_list_to_map_1 _ _ Hnotin). simpl. lia.
  - rewrite decide_False by done. rewrite lookup_insert_ne by done.
    by apply IH.
Qed.

(** [_keep_positive] on a table without negative counts. *)
Lemma keep_positive_get c tok :
  nonneg c →
  Counter.get (filter (λ kv, 0 < kv.2) c) tok = Counter.get c tok.
Proof.
  intros Hc. unfold Counter.get. rewrite map_lookup_filter.
  destruct (c !! tok) as [v|] eqn:E; [|done]. simpl.
  specialize (Hc _ _ E). case_guard; simpl; [done|lia].
Qed.

Lemma keep_positive_total c :
  nonneg c → Counter.total (filter (λ kv, 0 < kv.2) c) = Counter.total c.
Proof.
  induction c as [|k v c Hk IH] using map_ind; intros Hc.
  - by rewrite map_filter_empty.
  - assert (nonneg c) as Hc'.
    { intros tok v' H. apply (Hc tok). rewrite lookup_insert_ne; [done|].
      intros ->. congruence. }
    specialize (Hc k v (lookup_insert_eq _ _ _)).
    rewrite map_filter_insert. case_decide as Hv; simpl in Hv.
    + rewrite !total_insert_fresh; [by rewrite IH|done|].
      by rewrite map_lookup_filter, Hk.
    + rewrite delete_id by done. rewrite total_insert_fresh by done.
      rewrite IH by done. lia.
Qed.

Lemma positive_nonneg c : positive c → nonneg c.
Proof. intros H tok v Hv. specialize (H _ _ Hv). lia. Qed.

Lemma occurrences_pos tok tokens : 0 < occurrences tok tokens ↔ tok ∈ tokens.
Proof.
  induction tokens as [|x tokens IH].
  - unfold occurrences. simpl. split; [lia|by intros ?%elem_of_nil].
  - rewrite occurrences_cons, elem_of_cons.
    pose proof (occurrences_nonneg tok tokens).
    case_decide; subst; [split; [auto|lia]|].
    rewrite Z.add_0_l, IH. naive_solver.
Qed.

Lemma iadd_spec c other :
  nonneg c → nonneg other →
  (∀ tok, Counter.get (Counter.iadd c other) tok
          = Counter.get c tok + Counter.get other tok)
  ∧ Counter.total (Counter.iadd c other)
    = Counter.total c + Counter.total other
  ∧ positive (Counter.iadd c other).
Proof.
  intros Hc Ho. unfold Counter.iadd.
  destruct (iadd_fold (map_to_list other) c) as [Hg Ht]. cbv zeta in *.
  set (c' := foldl _ c (map_to_list other)) in *.
  assert (nonneg c') as Hc'.
  { intros tok v Hv.
    assert (Counter.get c' tok = v) as <-
      by (unfold Counter.get; by rewrite Hv).
    rewrite Hg, items_sum_get.
    assert (0 ≤ Counter.get c tok).
    { unfold Counter.get. destruct (c !! tok) eqn:E; simpl; [eauto|lia]. }
    assert (0 ≤ Counter.get other tok).
    { unfold Counter.get. destruct (other !! tok) eqn:E; simpl; [eauto|lia]. }
    lia. }
  split; [|split].
  - intros tok. by rewrite keep_positive_get, Hg, items_sum_get.
  - rewrite keep_positive_total, Ht by done.
    rewrite (total_foldr other). lia.
  - intros tok v [_ Hv]%map_lookup_filter_Some. simpl in Hv. lia.
Qed.

Lemma of_tokens_nonneg tokens : nonneg (Counter.of_tokens tokens).
Proof.
  intros tok v Hv.
  assert (Counter.get (Counter.of_tokens tokens) tok = v) as <-
    by (unfold Counter.get; by rewrite Hv).
  rewrite of_tokens_get. apply occurrences_nonneg.
Qed.
End counter.

(** ** The counting pass *)

Section count_articles.
Import BigramCounter.

(** The unigram table does not depend on the bigram counter; it sums the
    per-article counters. *)
Lemma count_articles_unigrams (articles : list (list string)) :
  ∀ u counter u' counter',
    count_articles u counter articles = Ok (u', counter') →
    positive u →
    (∀ tok, Counter.get u' tok
            = Counter.get u tok + occurrences tok (concat articles))
    ∧ Counter.total u'
      = Counter.total u + Z.of_nat (length (concat articles))
    ∧ positive u'.
Proof.
  induction articles as [|tokens articles IH];
    intros u counter u' counter' H Hu.
  - injection H as <- <-. simpl.
    split; [intros tok; unfold occurrences; simpl; lia|]. split; [lia|done].
  - simpl in H. inv_bind H.
    destruct (iadd_spec u (Counter.of_tokens tokens)
                (positive_nonneg _ Hu) (of_tokens_nonneg tokens))
      as (Hg & Ht & Hn).
    destruct (IH _ _ _ _ H Hn) as (Hg' & Ht' & Hn').
    split; [|split; [|done]].
    + intros tok. rewrite Hg', Hg, of_tokens_get. simpl concat.
      rewrite occurrences_app. lia.
    + rewrite Ht', Ht, of_tokens_total. simpl concat.
      rewrite length_app. lia.
Qed.

(** The counting pass returns when the window width is a non-zero
    integer. *)
Lemma count_articles_total (articles : list (list string)) :
  ∀ u counter w,
    synced counter → width (delta counter) = Ok w → w ≠ 0 →
    is_Ok (count_articles u counter articles).
Proof.
  induction articles as [|tokens articles IH];
    intros u counter w Hs Hw Hnz; [simpl; eauto|].
  destruct (add_all_total (pairs_of tokens) counter w Hs Hw Hnz)
    as [counter' Hc].
  simpl. rewrite Hc. simpl.
  destruct (add_all_fields _ _ _ Hc) as (_ & Hd & _ & Hsy).
  apply (IH _ _ w); [by apply Hsy|by rewrite Hd|done].
Qed.
End count_articles.

(** C9: unigram exactness. Whatever the articles, the counting pass
    (run with a [delta] of non-zero window width) returns, and its unigram
    table gives for every token exactly its number of occurrences in the
    token stream, tokens that never occur reading as 0 and having no entry;
    the sum of its values is the length of the stream. *)
Theorem C9_unigram_exactness (d : spec_float) (w : Z) (sw : list string)
    (articles : list (list string)) :
  BigramCounter.width d = Ok w → w ≠ 0 →
  ∃ unigrams counter,
    count_articles ∅ (BigramCounter.init d sw) articles
    = Ok (unigrams, counter)
    ∧ (∀ tok, Counter.get unigrams tok = occurrences tok (concat articles))
    ∧ (∀ tok, is_Some (unigrams !! tok) ↔ tok ∈ concat articles)
    ∧ Counter.total unigrams = Z.of_nat (length (concat articles)).
Proof.
  intros Hw Hnz.
  destruct (count_articles_total articles ∅ (BigramCounter.init d sw) w)
    as [[u c] H]; [apply init_synced|done|done|].
  exists u, c. split; [done|].
  destruct (count_articles_unigrams _ _ _ _ _ H) as (Hg & Ht & Hn); [done|].
  rename u into unigrams.
  assert (∀ tok, Counter.get unigrams tok = occurrences tok (concat articles))
    as Hg'.
  { intros tok. rewrite Hg. unfold Counter.get. by rewrite lookup_empty. }
  split; [done|]. split.
  - intros tok. rewrite <- occurrences_pos, <- Hg'.
    unfold Counter.get. split.
    + intros [v Hv]. rewrite Hv. simpl. by eapply Hn.
    + destruct (unigrams !! tok); [eauto|simpl; lia].
  - rewrite Ht, total_empty. lia.
Qed.

Lemma C9_unigram_exactness_witness :
  ∃ unigrams counter,
    count_articles ∅ (BigramCounter.init f_5e_3 ["the"%string])
      [["the"; "cat"; "sat"]; ["the"; "mat"]]%string
    = Ok (unigrams, counter)
    ∧ (∀ tok, Counter.get unigrams tok
              = occurrences tok ["the"; "cat"; "sat"; "the"; "mat"]%string)
    ∧ (∀ tok, is_Some (unigrams !! tok)
              ↔ tok ∈ ["the"; "cat"; "sat"; "the"; "mat"]%string)
    ∧ Counter.total unigrams = 5.
Proof.
  apply (C9_unigram_exactness f_5e_3 200 ["the"%string]
           [["the"; "cat"; "sat"]; ["the"; "mat"]]%string);
    [reflexivity|lia].
Defined.

(** ** The scorer *)

Section scorer.
Import Scorer.
Implicit Types unigrams : gmap string Z.
Implicit Types bigrams : gmap string (gmap string Z).
Implicit Types threshold : R.

Lemma truediv_Ok (x y v : R) :
  truediv x y = Ok v ↔ y ≠ 0%R ∧ v = (x / y)%R.
Proof.
  unfold truediv. destruct (Req_dec_T y 0); split.
  - done.
  - by intros [? _].
  - by intros [= <-].
  - by intros [_ ->].
Qed.

Lemma log_Ok (x v : R) : log x = Ok v ↔ (0 < x)%R ∧ v = ln x.
Proof.
  unfold log. destruct (Rlt_dec 0 x); split.
  - by intros [= <-].
  - by intros [_ ->].
  - done.
  - by intros [? _].
Qed.

(** For positive counts every division is defined, the ratio is positive
    and [pmi] is the logarithm of the ratio. *)
Lemma pmi_positive (c ca ux N : Z) :
  0 < c → 0 < ca → 0 < ux → 0 < N →
  pmi c ca ux N = Ok (pmi_value c ca ux N).
Proof.
  intros Hc Hca Hux HN. unfold pmi, pmi_value.
  apply IZR_lt in Hc, Hca, Hux, HN.
  assert (0 < IZR c / IZR ca)%R as H1 by by apply Rdiv_lt_0_compat.
  assert (0 < IZR ux / IZR N)%R as H2 by by apply Rdiv_lt_0_compat.
  assert (0 < (IZR c / IZR ca) / (IZR ux / IZR N))%R as H3
    by by apply Rdiv_lt_0_compat.
  unfold truediv.
  destruct (Req_dec_T (IZR ca) 0); [lra|]. simpl.
  destruct (Req_dec_T (IZR N) 0); [lra|]. simpl.
  destruct (Req_dec_T (IZR ux / IZR N) 0); [lra|]. simpl.
  unfold log. by destruct (Rlt_dec 0 (IZR c / IZR ca / (IZR ux / IZR N))).
Qed.

(** What a returned [pmi] is. *)
Lemma pmi_Ok (c ca ux N : Z) (v : R) :
  pmi c ca ux N = Ok v →
  ca ≠ 0 ∧ N ≠ 0 ∧ ux ≠ 0 ∧ v = pmi_value c ca ux N.
Proof.
  unfold pmi. intros H. inv_bind H.
  apply truediv_Ok in Ha as [Hca ->]. apply truediv_Ok in Ha0 as [HN ->].
  apply truediv_Ok in Ha1 as [Hux ->]. apply log_Ok in H as [_ ->].
  split; [by intros ->|]. split; [by intros ->|].
  split; [|done]. intros ->. apply Hux. unfold Rdiv. lra.
Qed.

Lemma score_subtree_elem threshold unigrams (N : Z) (y : string) (ca : Z)
    (items : list (string * Z)) : ∀ ps,
  score_subtree threshold unigrams N y ca items = Ok ps →
  ∀ p, p ∈ ps ↔
    ∃ x c, (x, c) ∈ items ∧ p = y +:+ " " +:+ x
           ∧ (pmi_value c ca (Counter.get unigrams x) N >= threshold)%R.
Proof.
  induction items as [|[x c] items IH]; intros ps H p.
  - injection H as <-. split; [by intros ?%elem_of_nil|].
    by intros (? & ? & ?%elem_of_nil & _).
  - simpl in H. inv_bind H. injection H as <-.
    apply pmi_Ok in Ha as (_ & _ & _ & ->). specialize (IH _ Ha0 p).
    destruct (Rge_dec _ threshold) as [Hge|Hlt].
    + rewrite elem_of_cons, IH. split.
      * intros [->|(x' & c' & Hin & -> & Hv)].
        -- exists x, c. by rewrite elem_of_cons; auto.
        -- exists x', c'. by rewrite elem_of_cons; auto.
      * intros (x' & c' & [[= -> ->]|Hin]%elem_of_cons & -> & Hv);
          [by left|right; eauto 10].
    + rewrite IH. split.
      * intros (x' & c' & Hin & -> & Hv).
        exists x', c'. by rewrite elem_of_cons; auto.
      * intros (x' & c' & [[= -> ->]|Hin]%elem_of_cons & -> & Hv);
          [done|eauto 10].
Qed.

Lemma score_subtree_total threshold unigrams (N : Z) (y : string) (ca : Z)
    (items : list (string * Z)) :
  (∀ x c, (x, c) ∈ items →
     0 < c ∧ 0 < Counter.get unigrams x ∧ 0 < ca ∧ 0 < N) →
  is_Ok (score_subtree threshold unigrams N y ca items).
Proof.
  induction items as [|[x c] items IH]; intros Hall; [simpl; eauto|].
  destruct (Hall x c) as (Hc & Hx & Hca & HN); [by left|].
  destruct IH as [ps Hps]; [intros; apply Hall; by right|].
  simpl. rewrite pmi_positive by done. simpl. rewrite Hps. simpl. eauto.
Qed.

Lemma score_table_elem threshold unigrams (N : Z)
    (items : list (string * gmap string Z)) : ∀ ps,
  score_table threshold unigrams N items = Ok ps →
  ∀ p, p ∈ ps ↔
    ∃ y sub x c, (y, sub) ∈ items ∧ sub !! x = Some c
           ∧ p = y +:+ " " +:+ x
           ∧ (pmi_value c (Counter.total sub) (Counter.get unigrams x) N
              >= threshold)%R.
Proof.
  induction items as [|[y sub] items IH]; intros ps H p.
  - injection H as <-. split; [by intros ?%elem_of_nil|].
    by intros (? & ? & ? & ? & ?%elem_of_nil & _).
  - simpl in H. inv_bind H. injection H as <-.
    rewrite elem_of_app, (IH _ Ha0 p), (score_subtree_elem _ _ _ _ _ _ _ Ha p).
    split.
    + intros [(x & c & Hin%elem_of_map_to_list & -> & Hv)
             |(y' & sub' & x & c & Hin & Hs & -> & Hv)].
      * exists y, sub, x, c. by rewrite elem_of_cons; auto.
      * exists y', sub', x, c. by rewrite elem_of_cons; auto.
    + intros (y' & sub' & x & c & [[= -> ->]|Hin]%elem_of_cons & Hs & -> & Hv).
      * left. exists x, c. by rewrite elem_of_map_to_list.
      * right. eauto 10.
Qed.

(** A stored count is at most the sum of a table of positive counts. *)
Lemma total_ge c (x : string) (v : Z) :
  positive c → c !! x = Some v → v ≤ Counter.total c.
Proof.
  intros Hpos Hx.
  rewrite <- (insert_delete_id c x v Hx).
  rewrite total_insert_fresh by apply lookup_delete_eq.
  assert (nonneg (delete x c)) as Hn.
  { intros k v' [_ Hk]%lookup_delete_Some. specialize (Hpos _ _ Hk). lia. }
  clear Hx Hpos. revert Hn.
  induction (delete x c) as [|k v' m Hk IH] using map_ind; intros Hn.
  - rewrite total_empty. lia.
  - rewrite total_insert_fresh by done.
    specialize (Hn k v' (lookup_insert_eq _ _ _)) as Hv.
    assert (nonneg m) as Hm.
    { intros k' v'' H. apply (Hn k'). rewrite lookup_insert_ne; [done|].
      intros ->. congruence. }
    specialize (IH Hm). lia.
Qed.

Lemma score_table_total threshold unigrams (N : Z)
    (items : list (string * gmap string Z)) :
  (∀ y sub x c, (y, sub) ∈ items → sub !! x = Some c →
     0 < c ∧ 0 < Counter.get unigrams x ∧ 0 < N) →
  is_Ok (score_table threshold unigrams N items).
Proof.
  induction items as [|[y sub] items IH]; intros Hall; [simpl; eauto|].
  destruct IH as [ps Hps]; [intros; eapply Hall; [by right|done]|].
  assert (positive sub) as Hpos.
  { intros k v Hk. by destruct (Hall y sub k v) as [? _]; [left| |]. }
  destruct (score_subtree_total threshold unigrams N y (Counter.total sub)
              (map_to_list sub)) as [ps1 Hps1].
  { intros x c Hx%elem_of_map_to_list.
    destruct (Hall y sub x c) as (Hc & Hu & HN); [by left|done|].
    pose proof (total_ge sub x c Hpos Hx). repeat split; (done || lia). }
  simpl. rewrite Hps1. simpl. rewrite Hps. simpl. eauto.
Qed.

(** The phrases emitted come from the entries of the bigram table whose
    statistic reaches the threshold, and from nothing else. *)
Lemma phrases_elem threshold unigrams bigrams ps :
  phrases threshold unigrams bigrams = Ok ps →
  ∀ p, p ∈ ps ↔
    ∃ y sub x c, bigrams !! y = Some sub ∧ sub !! x = Some c
           ∧ p = y +:+ " " +:+ x
           ∧ (pmi_value c (Counter.total sub) (Counter.get unigrams x)
                (Counter.total unigrams) >= threshold)%R.
Proof.
  intros H p. rewrite (score_table_elem _ _ _ _ _ H p).
  by setoid_rewrite elem_of_map_to_list.
Qed.

(** On the tables of a counting pass the scorer raises nothing. *)
Lemma phrases_total threshold unigrams bigrams :
  finished unigrams bigrams → is_Ok (phrases threshold unigrams bigrams).
Proof.
  intros [Hpos Hall]. unfold phrases. apply score_table_total.
  intros y sub x c Hin%elem_of_map_to_list Hx.
  destruct (Hall y x c) as [Hc Hu].
  { unfold lookup2. by rewrite Hin. }
  do 2 (split; [done|]).
  unfold Counter.get in Hu.
  destruct (unigrams !! x) as [v|] eqn:E; simpl in Hu; [|lia].
  pose proof (total_ge unigrams x v Hpos E). lia.
Qed.
End scorer.

(** ** Bounds on [ln (3/2)] *)

Section ln_bounds.
Local Open Scope R_scope.

Lemma exp_double (x : R) : exp (2 * x) = exp x * exp x.
Proof. rewrite <- exp_plus. f_equal. lra. Qed.

Lemma exp_fortieth : 0 < exp (1 / 40) < 40 / 39.
Proof.
  split; [apply exp_pos|].
  assert (exp (1 / 40) * exp (- (1 / 40)) = 1) as Hinv.
  { rewrite <- exp_plus. replace (1 / 40 + - (1 / 40)) with 0 by lra.
    apply exp_0. }
  assert (1 + - (1 / 40) < exp (- (1 / 40))) as Hlow
    by (apply exp_ineq1; lra).
  pose proof (exp_pos (1 / 40)) as Hpos.
  nra.
Qed.

Lemma exp_two_fifths : exp (2 / 5) < 3 / 2.
Proof.
  destruct exp_fortieth as [H0 H1].
  assert (exp (1 / 20) = exp (1 / 40) * exp (1 / 40)) as E1.
  { rewrite <- exp_double. f_equal. lra. }
  assert (exp (1 / 10) = exp (1 / 20) * exp (1 / 20)) as E2.
  { rewrite <- exp_double. f_equal. lra. }
  assert (exp (1 / 5) = exp (1 / 10) * exp (1 / 10)) as E3.
  { rewrite <- exp_double. f_equal. lra. }
  assert (exp (2 / 5) = exp (1 / 5) * exp (1 / 5)) as E4.
  { rewrite <- exp_double. f_equal. lra. }
  assert (0 < exp (1 / 20) < 105195 / 100000) as [? ?]
    by (rewrite E1; split; nra).
  assert (0 < exp (1 / 10) < 11066 / 10000) as [? ?]
    by (rewrite E2; split; nra).
  assert (0 < exp (1 / 5) < 12246 / 10000) as [? ?]
    by (rewrite E3; split; nra).
  rewrite E4. nra.
Qed.

Lemma ln_3_2_bounds : 2 / 5 <= ln (3 / 2) < 1 / 2.
Proof.
  assert (exp (ln (3 / 2)) = 3 / 2) as Hexp by (apply exp_ln; lra).
  split.
  - destruct (Rle_lt_dec (2 / 5) (ln (3 / 2))) as [Hle|Hlt]; [done|].
    apply exp_increasing in Hlt. pose proof exp_two_fifths. lra.
  - apply exp_lt_inv. rewrite Hexp.
    assert (1 + 1 / 2 < exp (1 / 2)) by (apply exp_ineq1; lra). lra.
Qed.
End ln_bounds.

(** ** From the counting pass to the scorer *)

Section pipeline.
Import BigramCounter.

Lemma frequency_pos (p : string * string) stream :
  0 < frequency p stream → p ∈ stream.
Proof.
  unfold frequency. induction stream as [|q stream IH]; [simpl; lia|].
  rewrite filter_cons. case_decide; subst; [by left|].
  intros Hpos. right. by apply IH.
Qed.

Lemma elem_of_concat {A} (x : A) (ls : list (list A)) :
  x ∈ concat ls ↔ ∃ l, x ∈ l ∧ l ∈ ls.
Proof.
  induction ls as [|l ls IH]; simpl.
  - split; [by intros ?%elem_of_nil|by intros (? & _ & ?%elem_of_nil)].
  - rewrite elem_of_app, IH. split.
    + intros [Hx|(l' & Hx & Hl)]; [exists l|exists l'];
        by rewrite elem_of_cons; auto.
    + intros (l' & Hx & [->|Hl]%elem_of_cons); [by left|right; eauto].
Qed.

Lemma pairs_of_snd (tokens : list string) (y x : string) :
  (y, x) ∈ pairs_of tokens → x ∈ tokens.
Proof.
  unfold pairs_of. intros H%elem_of_zip_r.
  destruct tokens; [done|]. by right.
Qed.

(** The counter of the pass has seen the pairs of all articles in order. *)
Lemma count_articles_counter (articles : list (list string)) :
  ∀ u counter u' counter',
    count_articles u counter articles = Ok (u', counter') →
    add_all counter (concat (pairs_of <$> articles)) = Ok counter'.
Proof.
  induction articles as [|tokens articles IH];
    intros u counter u' counter' H.
  - by injection H as <- <-.
  - simpl in H. inv_bind H. rewrite fmap_cons. simpl concat.
    rewrite add_all_app, Ha. simpl. by eapply IH.
Qed.

(** The tables the pass hands to the scorer are [finished]. *)
Lemma count_articles_finished (d : spec_float) (sw : list string)
    (articles : list (list string)) unigrams counter :
  count_articles ∅ (init d sw) articles = Ok (unigrams, counter) →
  finished unigrams (bigrams counter).
Proof.
  intros H.
  destruct (count_articles_unigrams _ _ _ _ _ H) as (Hg & _ & Hpos); [done|].
  split; [done|]. intros y x c Hc.
  pose proof (count_articles_counter _ _ _ _ _ H) as Hrun.
  pose proof (add_all_sound _ _ _ [] Hrun (init_sound d sw)) as Hsound.
  destruct (Hsound y x c Hc) as [[H1 Hfreq] _]. split; [lia|].
  rewrite Hg. unfold Counter.get at 1. rewrite lookup_empty. simpl.
  apply occurrences_pos.
  assert ((y, x) ∈ concat (pairs_of <$> articles)) as Hin
    by (apply frequency_pos; simpl in Hfreq; lia).
  apply elem_of_concat in Hin as (l & Hin & Hl).
  apply list_elem_of_fmap in Hl as (tokens & -> & Htok).
  apply elem_of_concat. exists tokens. split; [|done].
  by eapply pairs_of_snd.
Qed.

(** X13: the two passes of the source raise nothing, whatever the stopword
    list and the articles: no division by zero and no logarithm of a
    non-positive number occurs in the scorer, no key is missing in the
    weed-out. *)
Lemma article_phrases_total (sw : list string) (articles : list (list string)) :
  is_Ok (article_phrases sw articles).
Proof.
  unfold article_phrases.
  destruct (count_articles_total articles ∅ (init f_5e_3 sw) 200)
    as [[unigrams counter] H]; [apply init_synced|reflexivity|lia|].
  rewrite H. simpl. apply phrases_total.
  by eapply count_articles_finished.
Qed.
End pipeline.

(** ** The scorer on a small table *)

(** In the real-number scorer the table with unigram counts
    [{x: 10, y: 5}] and the single entry y -> x of count 5 has the value
    [ln (3/2)] at its only entry. *)
Lemma scenario_phrases (threshold : R) :
  Scorer.phrases threshold scenario_unigrams scenario_bigrams
  = Ok (if Rge_dec (ln (3 / 2)) threshold then ["y x"%string] else []).
Proof.
  unfold Scorer.phrases, scenario_bigrams.
  rewrite map_to_list_singleton. cbn [Scorer.score_table].
  rewrite map_to_list_singleton. cbn [Scorer.score_subtree].
  replace (Counter.total {["x"%string := 5]}) with 5 by by vm_compute.
  replace (Counter.total scenario_unigrams) with 15 by by vm_compute.
  replace (Counter.get scenario_unigrams "x") with 10 by by vm_compute.
  rewrite pmi_positive by lia. simpl.
  replace (pmi_value 5 5 10 15) with (ln (3 / 2)).
  2: { unfold pmi_value. f_equal. lra. }
  by destruct (Rge_dec (ln (3 / 2)) threshold).
Qed.

(** With the threshold the source fixes, 1000, the scenario yields no
    phrase. *)
Example scenario_source_threshold :
  Scorer.phrases Scorer.threshold scenario_unigrams scenario_bigrams = Ok [].
Proof.
  rewrite scenario_phrases. pose proof ln_3_2_bounds as [_ Hhi].
  unfold Scorer.threshold. destruct (Rge_dec (ln (3 / 2)) 1000); [lra|done].
Qed.

(** C10: frame of weed-out. When the two tables are synchronised,
    [weed_out_bigrams] returns; every entry of the result was an entry
    before, with the same count and the same creation bucket, so nothing is
    added or changed; the outer keys of both tables, [n], the bucket id,
    [delta] and the stopwords are the same. The scorer draws its phrases
    only from child entries, so a context token left with an empty
    dictionary contributes no phrase (and no error) to the scoring loop. *)
Theorem C10_weed_out_frame (s : BigramCounter.t) :
  synced s →
  ∃ s', BigramCounter.weed_out_bigrams s = Ok s'
    ∧ (∀ t1 t2 c, BigramCounter.count s' t1 t2 = Some c →
         BigramCounter.count s t1 t2 = Some c
         ∧ BigramCounter.created_bucket s' t1 t2
           = BigramCounter.created_bucket s t1 t2)
    ∧ dom (BigramCounter.bigrams s') = dom (BigramCounter.bigrams s)
    ∧ dom (BigramCounter.bucket_ids s') = dom (BigramCounter.bucket_ids s)
    ∧ BigramCounter.n s' = BigramCounter.n s
    ∧ BigramCounter.current_bucket_id s' = BigramCounter.current_bucket_id s
    ∧ BigramCounter.delta s' = BigramCounter.delta s
    ∧ BigramCounter.stopwords s' = BigramCounter.stopwords s
    ∧ (∀ threshold unigrams ps,
         Scorer.phrases threshold unigrams (BigramCounter.bigrams s') = Ok ps →
         ∀ p, p ∈ ps →
           ∃ y x c, BigramCounter.count s' y x = Some c
                    ∧ p = y +:+ " " +:+ x)
    ∧ (∀ threshold unigrams count_all token_y rest,
         Scorer.score_table threshold unigrams count_all ((token_y, ∅) :: rest)
         = Scorer.score_table threshold unigrams count_all rest).
Proof.
  intros Hs. destruct (weed_out_bigrams_total s Hs) as [s' H].
  exists s'. split; [done|].
  destruct (weed_out_bigrams_Ok _ _ H) as (Hn & Hd & Hsw & Hc & Hdb & Hdi & Hl).
  split.
  { intros t1 t2 c Hcount. destruct (Hl t1 t2) as [H1 H2].
    rewrite Hcount in H1. rewrite H2. by case_decide. }
  do 6 (split; [done|]). split.
  - intros threshold unigrams ps Hps p Hp.
    apply (phrases_elem _ _ _ _ Hps) in Hp as (y & sub & x & c & Hy & Hx & -> & _).
    exists y, x, c. split; [|done].
    unfold BigramCounter.count, lookup2. by rewrite Hy.
  - intros threshold unigrams count_all token_y rest.
    cbn [Scorer.score_table]. rewrite map_to_list_empty. simpl.
    by destruct (Scorer.score_table threshold unigrams count_all rest).
Qed.

Lemma C10_weed_out_frame_witness :
  ∃ s', BigramCounter.weed_out_bigrams
          (BigramCounter.count_pair (BigramCounter.init f_0_5 []) "a" "b")
        = Ok s'
    ∧ dom (BigramCounter.bigrams s') = {["a"%string]}.
Proof.
  destruct (C10_weed_out_frame
              (BigramCounter.count_pair (BigramCounter.init f_0_5 []) "a" "b"))
    as (s' & H & _ & Hdom & _).
  - apply count_pair_synced, init_synced.
  - exists s'. split; [done|]. rewrite Hdom. by vm_compute.
Defined.

(** ** Page titles *)

Section page_titles.
Import PageTitles.
Implicit Types s sub phrase : list ascii.

(** [contains] is the substring test. *)
Lemma contains_spec sub s :
  contains sub s = true ↔ ∃ l1 l2, s = l1 ++ sub ++ l2.
Proof.
  induction s as [|c s IH]; simpl.
  - case_decide as Hp.
    + split; [|done]. intros _. apply prefix_nil_inv in Hp as ->.
      by exists [], [].
    + split; [done|]. intros (l1 & l2 & H). exfalso. apply Hp.
      symmetry in H. apply app_eq_nil in H as [-> [-> _]%app_eq_nil].
      apply prefix_nil.
  - case_decide as Hp.
    + split; [|done]. intros _. destruct Hp as [k ->]. by exists [], k.
    + rewrite IH. split.
      * intros (l1 & l2 & ->). by exists (c :: l1), l2.
      * intros (l1 & l2 & H). destruct l1 as [|c' l1].
        -- exfalso. apply Hp. exists l2. by rewrite H.
        -- injection H as -> ->. by exists l1, l2.
Qed.

Lemma contains_elem sub s (c : ascii) :
  contains sub s = true → c ∈ sub → c ∈ s.
Proof.
  intros (l1 & l2 & ->)%contains_spec Hc. rewrite !elem_of_app. auto.
Qed.

Lemma isnt_ignore_None phrase : isnt_ignore phrase = None ↔ phrase = [].
Proof.
  unfold isnt_ignore. rewrite <- last_None.
  destruct (last phrase); simpl; naive_solver.
Qed.

Lemma ignored_phrases_None (rows : list (list ascii)) :
  ignored_phrases rows = None ↔ [] ∈ rows.
Proof.
  induction rows as [|p rows IH]; simpl.
  - split; [done|by intros ?%elem_of_nil].
  - rewrite elem_of_cons, <- IH.
    destruct (isnt_ignore p) as [keep|] eqn:E.
    + assert (p ≠ []) as Hp by (intros H%isnt_ignore_None; congruence).
      destruct (ignored_phrases rows); naive_solver.
    + apply isnt_ignore_None in E. naive_solver.
Qed.

Lemma ignored_phrases_elem (rows kept : list (list ascii)) :
  ignored_phrases rows = Some kept →
  (length kept ≤ length rows)%nat
  ∧ ∀ p, p ∈ kept ↔ p ∈ rows ∧ isnt_ignore p = Some true.
Proof.
  revert kept. induction rows as [|q rows IH]; intros kept H; simpl in H.
  - injection H as <-. split; [done|]. intros p. split.
    + by intros ?%elem_of_nil.
    + by intros [?%elem_of_nil _].
  - destruct (isnt_ignore q) as [keep|] eqn:E; [|done].
    destruct (ignored_phrases rows) as [kept'|]; [|done].
    injection H as <-. destruct (IH kept' eq_refl) as [Hlen Hin].
    destruct keep; simpl.
    + split; [lia|]. intros p. rewrite !elem_of_cons, Hin. naive_solver.
    + split; [lia|]. intros p. rewrite elem_of_cons, Hin. naive_solver.
Qed.

(** *** [sanitize] *)

Lemma lstrip_spec (ch : ascii) s :
  ∃ l, s = l ++ lstrip ch s ∧ Forall (.= ch) l ∧ head (lstrip ch s) ≠ Some ch.
Proof.
  induction s as [|c s (l & Hs & Hl & Hh)]; simpl.
  - by exists [].
  - case_decide as Hc.
    + subst. exists (ch :: l). split; [by rewrite <- app_comm_cons, <- Hs|].
      split; [by constructor|done].
    + exists []. split; [done|]. split; [constructor|]. simpl. congruence.
Qed.

Lemma rstrip_spec (ch : ascii) s :
  ∃ l, s = rstrip ch s ++ l ∧ Forall (.= ch) l ∧ last (rstrip ch s) ≠ Some ch.
Proof.
  unfold rstrip. destruct (lstrip_spec ch (reverse s)) as (l & Hs & Hl & Hh).
  exists (reverse l). split; [|split].
  - rewrite <- reverse_app, <- Hs. by rewrite reverse_involutive.
  - by apply Forall_reverse.
  - by rewrite last_reverse.
Qed.

Lemma lstrip_id (ch : ascii) s : ch ∉ s → lstrip ch s = s.
Proof.
  destruct s as [|c s]; [done|]. intros H. simpl.
  rewrite decide_False; [done|]. intros ->. apply H. by left.
Qed.

Lemma rstrip_id (ch : ascii) s : ch ∉ s → rstrip ch s = s.
Proof.
  intros H. unfold rstrip. rewrite lstrip_id by by rewrite elem_of_reverse.
  apply reverse_involutive.
Qed.

Lemma replace_id (old new : ascii) s : old ∉ s → replace old new s = s.
Proof.
  induction s as [|c s IH]; [done|]. intros H.
  apply not_elem_of_cons in H as [Hc Hs]. unfold replace in *.
  rewrite fmap_cons, IH by done. by rewrite decide_False.
Qed.

Lemma replace_not_elem (old new : ascii) s :
  old ≠ new → old ∉ replace old new s.
Proof.
  intros Hne (c & Hc & _)%list_elem_of_fmap. case_decide; congruence.
Qed.

(** [sanitize] cuts the underscores off both ends and turns the others
    into spaces. *)
Lemma sanitize_spec phrase :
  ∃ l1 core l2,
    phrase = l1 ++ core ++ l2
    ∧ Forall (.= "_"%char) l1 ∧ Forall (.= "_"%char) l2
    ∧ head core ≠ Some "_"%char ∧ last core ≠ Some "_"%char
    ∧ sanitize phrase = replace "_" " " core.
Proof.
  unfold sanitize.
  destruct (lstrip_spec "_" phrase) as (l1 & H1 & Hl1 & Hh).
  destruct (rstrip_spec "_" (lstrip "_" phrase)) as (l2 & H2 & Hl2 & Hlast).
  exists l1, (rstrip "_" (lstrip "_" phrase)), l2.
  split; [by rewrite <- H2|]. do 2 (split; [done|]).
  split; [|done].
  destruct (rstrip "_" (lstrip "_" phrase)) as [|c core] eqn:E; [done|].
  rewrite H2 in Hh. done.
Qed.
End page_titles.

Section page_titles_filter.
Import PageTitles.
Implicit Types s sub phrase : list ascii.

(** The five tests of [isnt_ignore], for a non-empty phrase. *)
Lemma isnt_ignore_false phrase :
  isnt_ignore phrase = Some false ↔
  phrase ≠ []
  ∧ ((last phrase = Some ")"%char ∧ contains (str "_(") phrase = true)
     ∨ phrase ∈ chars_letters
     ∨ Forall (λ c, c ∈ chars_symbols) phrase
     ∨ contains (str "(disambiguation)") phrase = true
     ∨ str "Lists_of" = take 8 phrase).
Proof.
  assert (phrase ∈ chars_letters → length phrase = 1%nat) as Hlen.
  { intros (c & -> & _)%list_elem_of_fmap. done. }
  unfold isnt_ignore. destruct (last phrase) as [c|] eqn:Hlast;
    cbn [mbind option_bind].
  - assert (phrase ≠ []) as Hne by (intros ->; done).
    set (b1 := bool_decide (c = ")"%char) && contains (str "_(") phrase).
    set (b2 := bool_decide (length phrase = 1%nat)
               && bool_decide (phrase ∈ chars_letters)).
    set (b3 := bool_decide (Forall (λ c, c ∈ chars_symbols) phrase)).
    set (b4 := contains (str "(disambiguation)") phrase).
    set (b5 := bool_decide (str "Lists_of" = take 8 phrase)).
    assert ((if b1 then false else if b2 then false else if b3 then false
             else if b4 then false else if b5 then false else true)
            = negb (b1 || b2 || b3 || b4 || b5)) as ->
      by by destruct b1, b2, b3, b4, b5.
    assert (b1 = true ↔ Some c = Some ")"%char
                        ∧ contains (str "_(") phrase = true) as H1.
    { unfold b1. rewrite andb_true_iff, bool_decide_eq_true. naive_solver. }
    assert (b2 = true ↔ phrase ∈ chars_letters) as H2.
    { unfold b2. rewrite andb_true_iff, !bool_decide_eq_true. naive_solver. }
    assert (b3 = true ↔ Forall (λ c, c ∈ chars_symbols) phrase) as H3
      by apply bool_decide_eq_true.
    assert (b5 = true ↔ str "Lists_of" = take 8 phrase) as H5
      by apply bool_decide_eq_true.
    rewrite <- H1, <- H2, <- H3, <- H5. fold b4.
    split.
    + intros [= H]. apply negb_false_iff in H.
      rewrite !orb_true_iff in H. tauto.
    + intros [_ H]. f_equal. apply negb_false_iff.
      rewrite !orb_true_iff. tauto.
  - apply last_None in Hlast as ->. split; [done|]. by intros [? _].
Qed.

Lemma isnt_ignore_true phrase :
  isnt_ignore phrase = Some true ↔
  phrase ≠ [] ∧ isnt_ignore phrase ≠ Some false.
Proof.
  rewrite <- isnt_ignore_None.
  destruct (isnt_ignore phrase) as [[]|]; naive_solver.
Qed.

(** The pattern survives [sanitize] only if it was in the phrase: the cut
    and the replacement of underscores by spaces cannot create a substring
    without spaces. *)
Lemma replace_eq_inv (old new : ascii) s sub :
  new ∉ sub → replace old new s = sub → s = sub.
Proof.
  revert sub. induction s as [|c s IH]; intros sub Hn H.
  - by destruct sub.
  - destruct sub as [|d sub]; [done|]. unfold replace in *.
    rewrite fmap_cons in H. injection H as Hc Hs.
    apply not_elem_of_cons in Hn as [Hd Hn].
    f_equal; [|by apply IH]. case_decide; congruence.
Qed.

Lemma contains_sanitize sub phrase :
  " "%char ∉ sub → contains sub (sanitize phrase) = true →
  contains sub phrase = true.
Proof.
  intros Hsp H.
  destruct (sanitize_spec phrase) as (l1 & core & l2 & -> & _ & _ & _ & _ & E).
  rewrite E in H. apply contains_spec in H as (a & b & H).
  unfold replace in H.
  apply fmap_app_inv in H as (a' & rest & _ & H & ->).
  symmetry in H. apply fmap_app_inv in H as (sub' & b' & Hsub & _ & ->).
  symmetry in Hsub. apply (replace_eq_inv "_" " ") in Hsub as ->; [|done].
  apply contains_spec. exists (l1 ++ a'), (b' ++ l2).
  by rewrite <- !app_assoc.
Qed.
End page_titles_filter.

Import PageTitles.

(** Closed decidable facts about literals, by evaluation. *)
Ltac by_compute := apply (bool_decide_unpack _); vm_compute; exact I.

(** X1: [isnt_ignore] raises [IndexError] exactly on the empty phrase, and
    the phrases of a list of rows raise exactly when some row is empty. *)
Theorem titles_raise_on_empty_row :
  (∀ phrase, isnt_ignore phrase = None ↔ phrase = [])
  ∧ (∀ rows, phrases rows = None ↔ [] ∈ rows).
Proof.
  split; [apply isnt_ignore_None|].
  intros rows. unfold phrases. rewrite <- ignored_phrases_None.
  destruct (ignored_phrases rows); naive_solver.
Qed.

(** X2: [sanitize] returns a phrase without underscore, no longer than its
    argument; it is empty exactly when the argument consists of underscores
    only, and sanitizing twice is sanitizing once. *)
Theorem sanitize_shape (phrase : list ascii) :
  "_"%char ∉ sanitize phrase
  ∧ (length (sanitize phrase) ≤ length phrase)%nat
  ∧ (sanitize phrase = [] ↔ Forall (.= "_"%char) phrase)
  ∧ sanitize (sanitize phrase) = sanitize phrase.
Proof.
  destruct (sanitize_spec phrase)
    as (l1 & core & l2 & Hp & Hl1 & Hl2 & Hh & Hl & E).
  assert ("_"%char ∉ sanitize phrase) as Hno.
  { rewrite E. by apply replace_not_elem. }
  split; [done|]. split; [|split].
  - rewrite E, Hp. unfold replace. rewrite length_fmap, !length_app. lia.
  - rewrite E. split.
    + intros H. apply fmap_nil_inv in H as ->. rewrite Hp.
      by apply Forall_app.
    + intros H. rewrite Hp in H.
      apply Forall_app in H as [_ [H _]%Forall_app].
      destruct core as [|c core]; [done|].
      apply Forall_cons in H as [-> _]. done.
  - unfold sanitize at 1.
    by rewrite lstrip_id, rstrip_id, replace_id.
Qed.

(** X3: a non-empty row made of underscores only is kept by [isnt_ignore]
    and sanitized to the empty phrase, which is handed to the lexicon. *)
Theorem underscore_row_gives_empty_phrase (phrase : list ascii) :
  phrase ≠ [] → Forall (.= "_"%char) phrase →
  isnt_ignore phrase = Some true ∧ phrases [phrase] = Some [[]].
Proof.
  intros Hne Hall.
  assert (∀ c, c ∈ phrase → c = "_"%char) as Hin by by apply Forall_forall.
  assert (isnt_ignore phrase = Some true) as Hkeep.
  { apply isnt_ignore_true. split; [done|].
    intros (_ & H)%isnt_ignore_false.
    destruct H as [[H _]|[H|[H|[H|H]]]].
    - apply last_Some_elem_of, Hin in H. done.
    - apply list_elem_of_fmap in H as (c & -> & Hc).
      rewrite (Hin c) in Hc by by left.
      revert Hc. by_compute.
    - destruct phrase as [|c p]; [done|].
      apply Forall_cons in H as [H _]. rewrite (Hin c) in H by by left.
      revert H. by_compute.
    - apply (contains_elem _ _ "("%char) in H; [|by_compute].
      by apply Hin in H.
    - assert ("L"%char ∈ take 8 phrase) as HL by (rewrite <- H; by left).
      apply elem_of_take in HL as (i & HL & _).
      apply list_elem_of_lookup_2, Hin in HL. done. }
  split; [done|]. unfold phrases. simpl. rewrite Hkeep. simpl.
  do 2 f_equal. by apply sanitize_shape.
Qed.

Lemma underscore_row_gives_empty_phrase_witness :
  isnt_ignore (str "___") = Some true ∧ phrases [str "___"] = Some [[]].
Proof.
  apply (underscore_row_gives_empty_phrase (str "___")); [done|].
  by repeat constructor.
Defined.

(** X4: on a phrase without capital L, as every lowercased row is, the
    test against 'Lists_of' never rejects: such a phrase is rejected exactly
    by one of the first four tests. *)
Theorem lists_of_test_never_fires (phrase : list ascii) :
  "L"%char ∉ phrase →
  str "Lists_of" ≠ take 8 phrase
  ∧ (isnt_ignore phrase = Some false ↔
     phrase ≠ []
     ∧ ((last phrase = Some ")"%char ∧ contains (str "_(") phrase = true)
        ∨ phrase ∈ chars_letters
        ∨ Forall (λ c, c ∈ chars_symbols) phrase
        ∨ contains (str "(disambiguation)") phrase = true)).
Proof.
  intros HL.
  assert (str "Lists_of" ≠ take 8 phrase) as Hno.
  { intros H. apply HL.
    assert ("L"%char ∈ take 8 phrase) as Hin by (rewrite <- H; by left).
    apply elem_of_take in Hin as (i & Hin & _).
    by eapply list_elem_of_lookup_2. }
  split; [done|]. rewrite isnt_ignore_false. naive_solver.
Qed.

Lemma lists_of_test_never_fires_witness :
  str "Lists_of" ≠ take 8 (str "lists_of_rivers")
  ∧ isnt_ignore (str "lists_of_rivers") = Some true.
Proof.
  destruct (lists_of_test_never_fires (str "lists_of_rivers")) as [H _].
  - by_compute.
  - split; [done|]. reflexivity.
Defined.

(** X5: when no row is empty, the phrases handed to the lexicon are the
    sanitized rows that [isnt_ignore] keeps; there are at most as many as
    rows, and none contains an underscore or '(disambiguation)'. *)
Theorem title_phrases_clean (rows ps : list (list ascii)) :
  phrases rows = Some ps →
  (length ps ≤ length rows)%nat
  ∧ ∀ q, q ∈ ps →
      "_"%char ∉ q
      ∧ contains (str "(disambiguation)") q = false
      ∧ ∃ phrase, phrase ∈ rows ∧ isnt_ignore phrase = Some true
                  ∧ q = sanitize phrase.
Proof.
  unfold phrases. destruct (ignored_phrases rows) as [kept|] eqn:E; [|done].
  intros [= <-]. destruct (ignored_phrases_elem _ _ E) as [Hlen Hin].
  split; [by rewrite length_map|].
  intros q (p & -> & Hp)%list_elem_of_fmap.
  apply Hin in Hp as [Hp Hkeep].
  split; [apply sanitize_shape|]. split; [|by exists p].
  destruct (contains (str "(disambiguation)") (sanitize p)) eqn:Hc; [|done].
  apply contains_sanitize in Hc.
  - apply isnt_ignore_true in Hkeep as [Hne Hkeep]. exfalso. apply Hkeep.
    apply isnt_ignore_false. naive_solver.
  - by_compute.
Qed.

Lemma title_phrases_clean_witness :
  (length [str "new york"; []] ≤ length [str "new_york"; str "a"; str "___"])%nat
  ∧ ∀ q, q ∈ [str "new york"; []] →
      "_"%char ∉ q
      ∧ contains (str "(disambiguation)") q = false
      ∧ ∃ phrase, phrase ∈ [str "new_york"; str "a"; str "___"]
                  ∧ isnt_ignore phrase = Some true
                  ∧ q = sanitize phrase.
Proof.
  apply (title_phrases_clean [str "new_york"; str "a"; str "___"]).
  reflexivity.
Defined.

(** ** The file name of a URL *)

Section download.
Import Download.
Implicit Types s url : list ascii.

Lemma split_nonempty (sep : ascii) s : split sep s ≠ [].
Proof.
  destruct s as [|c s]; simpl; [done|].
  case_decide; [done|]. by destruct (split sep s).
Qed.

(** No part holds the separator, and joining the parts gives the string
    back. *)
Lemma split_join (sep : ascii) s :
  Forall (λ p, sep ∉ p) (split sep s) ∧ join sep (split sep s) = s.
Proof.
  induction s as [|c s [Hall Hjoin]]; simpl.
  - split; [|done]. constructor; [|done]. by intros ?%elem_of_nil.
  - pose proof (split_nonempty sep s) as Hne. case_decide as Hc.
    + subst. split.
      * constructor; [by intros ?%elem_of_nil|done].
      * simpl. destruct (split sep s) as [|p rest]; [done|].
        by rewrite Hjoin.
    + destruct (split sep s) as [|p rest]; [done|].
      apply Forall_cons in Hall as [Hp Hrest]. split.
      * constructor; [|done]. by apply not_elem_of_cons.
      * simpl in *. destruct rest; by rewrite <- Hjoin.
Qed.

(** The last part of a joined list ends the string, after a separator if
    there is more than one part. *)
Lemma join_last (sep : ascii) (parts : list (list ascii)) f :
  last parts = Some f →
  ∃ pre, join sep parts = pre ++ f ∧ (pre = [] ∨ last pre = Some sep).
Proof.
  induction parts as [|p parts IH]; [done|].
  destruct parts as [|q parts].
  - intros [= ->]. exists []. by split; [|left].
  - rewrite last_cons_cons. intros Hf.
    destruct (IH Hf) as (pre & Hj & Hpre).
    exists (p ++ sep :: pre). split.
    + change (join sep (p :: q :: parts))
        with (p ++ sep :: join sep (q :: parts)).
      by rewrite Hj, <- app_assoc.
    + right. rewrite last_app. destruct Hpre as [->|Hpre].
      * done.
      * rewrite last_cons, Hpre. done.
Qed.
End download.

(** X6: extracting the file name of a URL never fails: [url.split('/')]
    is never empty, joins back to the URL, and its last element is the part
    of the URL after the last '/' (the whole URL when it has none, the empty
    string when it ends with '/'), which contains no '/'. *)
Theorem filename_is_last_component (url : list ascii) :
  Download.join "/" (Download.split "/" url) = url
  ∧ ∃ f pre,
      Download.filename url = Some f
      ∧ url = pre ++ f
      ∧ "/"%char ∉ f
      ∧ (pre = [] ∨ last pre = Some "/"%char).
Proof.
  destruct (split_join "/" url) as [Hall Hjoin]. split; [done|].
  unfold Download.filename.
  destruct (last (Download.split "/" url)) as [f|] eqn:Hlast.
  - destruct (join_last "/" _ _ Hlast) as (pre & Hj & Hpre).
    exists f, pre. split; [done|]. rewrite Hjoin in Hj.
    split; [done|]. split; [|done].
    apply last_Some_elem_of in Hlast.
    by apply (proj1 (Forall_forall _ _) Hall).
  - apply last_None in Hlast. by apply split_nonempty in Hlast.
Qed.

(** ** Buckets and survival *)

Section buckets.
Import BigramCounter.
Implicit Types s : t.

(** The state handed to [weed_out_bigrams] by [move_next_bucket]. *)
Lemma move_next_bucket_lookup s s' :
  move_next_bucket s = Ok s' →
  current_bucket_id s' = current_bucket_id s + 1
  ∧ ∀ t1 t2,
      (∀ c, count s' t1 t2 = Some c → count s t1 t2 = Some c)
      ∧ (∀ b, created_bucket s' t1 t2 = Some b →
           created_bucket s t1 t2 = Some b)
      ∧ (∀ c b, count s' t1 t2 = Some c → created_bucket s' t1 t2 = Some b →
           current_bucket_id s + 1 < c + b)
      ∧ (∀ c b, count s t1 t2 = Some c → created_bucket s t1 t2 = Some b →
           c ≤ current_bucket_id s + 1 - b → count s' t1 t2 = None).
Proof.
  unfold move_next_bucket.
  intros (_ & _ & _ & Hc & _ & _ & Hl)%weed_out_bigrams_Ok.
  split; [done|]. intros t1 t2. destruct (Hl t1 t2) as [H1 H2].
  destruct (decide (weeded _ t1 t2)) as [Hw|Hw].
  - rewrite H1, H2. split; [done|]. split; [done|]. split; [done|]. done.
  - rewrite H1, H2. unfold count, created_bucket in *. simpl in *.
    split; [done|]. split; [done|]. split.
    + intros c b Hcount Hcreated.
      destruct (decide (current_bucket_id s + 1 < c + b)); [done|].
      exfalso. apply Hw, weeded_iff. exists c, b.
      unfold count, created_bucket. simpl. split; [done|]. split; [done|]. lia.
    + intros c b Hcount Hcreated Hle. exfalso. apply Hw, weeded_iff.
      exists c, b. unfold count, created_bucket. by simpl.
Qed.

Lemma count_pair_bucket_wf s (t1 t2 : string) :
  bucket_wf s → bucket_wf (count_pair s t1 t2).
Proof.
  intros [Hcur Hall]. split; [by rewrite count_pair_current_bucket_id|].
  intros k1 k2 c b. rewrite count_pair_current_bucket_id.
  destruct (decide ((t1 ∉ stopwords s) ∧ (t2 ∉ stopwords s))) as [[H1 H2]|Hsw].
  - rewrite count_pair_count, count_pair_created_bucket by done.
    case_decide as Hk; [|apply Hall]. destruct Hk as [<- <-].
    destruct (count s t1 t2) as [c0|] eqn:E; simpl.
    + intros [= <-] Hb. destruct (Hall _ _ _ _ E Hb). lia.
    + intros [= <-] [= <-]. lia.
  - unfold count, created_bucket.
    destruct (count_pair_stopword s t1 t2) as [-> ->]; [|apply Hall].
    destruct (decide (t1 ∈ stopwords s)); [tauto|].
    destruct (decide (t2 ∈ stopwords s)); tauto.
Qed.

(** One [add]: the invariant is kept, and after a boundary every entry is
    at least two buckets old and ahead of the test by one. *)
Lemma add_bucket_wf s (t1 t2 : string) s' w :
  add s t1 t2 = Ok s' → width (delta s) = Ok w → bucket_wf s →
  bucket_wf s'
  ∧ (n s' `mod` w = 0 →
     ∀ k1 k2 c b, count s' k1 k2 = Some c → created_bucket s' k1 k2 = Some b →
       b ≤ current_bucket_id s' - 2 ∧ current_bucket_id s' < c + b).
Proof.
  intros Hadd Hw Hwf.
  destruct (add_fields _ _ _ _ Hadd) as (Hn & _ & _).
  apply add_Ok in Hadd as (w' & Hw' & Hnz & H).
  assert (w' = w) as -> by congruence.
  pose proof (count_pair_bucket_wf s t1 t2 Hwf) as [Hcur Hall].
  rewrite Hn. case_decide as Hb.
  - apply move_next_bucket_lookup in H as [Hc Hl]. rewrite Hc.
    assert (∀ k1 k2 c b,
              count s' k1 k2 = Some c → created_bucket s' k1 k2 = Some b →
              b ≤ current_bucket_id (count_pair s t1 t2) + 1 - 2
              ∧ current_bucket_id (count_pair s t1 t2) + 1 < c + b) as Hstrong.
    { intros k1 k2 c b Hcount Hcreated.
      destruct (Hl k1 k2) as (Hl1 & Hl2 & Hl3 & _).
      destruct (Hall k1 k2 c b (Hl1 _ Hcount) (Hl2 _ Hcreated)).
      specialize (Hl3 _ _ Hcount Hcreated). lia. }
    split; [|done]. split; [lia|].
    intros k1 k2 c b Hcount Hcreated.
    destruct (Hstrong _ _ _ _ Hcount Hcreated).
    destruct (Hl k1 k2) as (Hl1 & Hl2 & _).
    destruct (Hall k1 k2 c b (Hl1 _ Hcount) (Hl2 _ Hcreated)). lia.
  - subst. done.
Qed.

Lemma init_bucket_wf d sw : bucket_wf (init d sw).
Proof. split; [done|]. intros t1 t2 c b. unfold count. simpl. done. Qed.

Lemma add_all_bucket_wf (pairs : list (string * string)) : ∀ s s',
  add_all s pairs = Ok s' → bucket_wf s → bucket_wf s'.
Proof.
  induction pairs as [|[t1 t2] pairs IH]; intros s s' H Hwf.
  - by injection H as <-.
  - simpl in H. inv_bind H.
    destruct (width (delta s)) as [w|e] eqn:Hw.
    + eapply IH; [done|]. by eapply add_bucket_wf.
    + apply add_Ok in Ha as (w' & Hw' & _). congruence.
Qed.

(** A weed-out leaves nothing for a second one to delete. *)
Lemma weed_out_bigrams_not_weeded s s' (t1 t2 : string) :
  weed_out_bigrams s = Ok s' → ¬ weeded s' t1 t2.
Proof.
  intros (_ & _ & _ & Hc & _ & _ & Hl)%weed_out_bigrams_Ok
         (c & b & Hcount & Hcreated & Hle)%weeded_iff.
  destruct (Hl t1 t2) as [H1 H2]. rewrite Hcount in H1. rewrite Hcreated in H2.
  destruct (decide (weeded s t1 t2)) as [Hw|Hw]; [done|].
  apply Hw, weeded_iff. exists c, b. by rewrite <- Hc.
Qed.
End buckets.

Import BigramCounter.

(** X7: bucket invariant. From a fresh counter with a non-zero window
    width the whole stream is processed, and then the bucket id is at least
    1 and every entry has a creation bucket [b] with
    [0 ≤ b < current_bucket_id] and [current_bucket_id ≤ count + b]. Right
    after a bucket boundary ([n] a multiple of the width) every entry left
    is at least two buckets old and has a count of at least 3. *)
Theorem entries_keep_pace_with_buckets (d : spec_float) (w : Z)
    (sw : list string) (stream : list (string * string)) :
  width d = Ok w → w ≠ 0 →
  ∃ s, add_all (init d sw) stream = Ok s
    ∧ 1 ≤ current_bucket_id s
    ∧ (∀ t1 t2 c, count s t1 t2 = Some c →
         ∃ b, created_bucket s t1 t2 = Some b
              ∧ 0 ≤ b < current_bucket_id s
              ∧ current_bucket_id s ≤ c + b)
    ∧ (n s `mod` w = 0 →
       ∀ t1 t2 c, count s t1 t2 = Some c →
         ∃ b, created_bucket s t1 t2 = Some b
              ∧ b ≤ current_bucket_id s - 2 ∧ 3 ≤ c).
Proof.
  intros Hw Hnz.
  destruct (add_all_total stream (init d sw) w) as [s Hs];
    [apply init_synced|done|done|].
  exists s. split; [done|].
  destruct (add_all_fields _ _ _ Hs) as (_ & _ & _ & Hsy).
  specialize (Hsy (init_synced d sw)).
  destruct (add_all_bucket_wf _ _ _ Hs (init_bucket_wf d sw)) as [Hcur Hall].
  split; [done|]. split.
  { intros t1 t2 c Hc. destruct (proj1 (Hsy t1 t2)) as [b Hb]; [eauto|].
    exists b. split; [done|]. by apply (Hall t1 t2). }
  intros Hmod t1 t2 c Hc.
  destruct (proj1 (Hsy t1 t2)) as [b Hb]; [eauto|].
  exists b. split; [done|].
  destruct (decide (stream = [])) as [->|Hne].
  { injection Hs as <-. unfold count in Hc. by simpl in Hc. }
  destruct (exists_last Hne) as (pre & [p1 p2] & ->).
  rewrite add_all_app in Hs. apply bind_Ok in Hs as (s0 & Hpre & Hlast).
  simpl in Hlast. apply bind_Ok in Hlast as (s1 & Hadd & [= ->]).
  destruct (add_all_fields _ _ _ Hpre) as (_ & Hd & _).
  pose proof (add_all_bucket_wf _ _ _ Hpre (init_bucket_wf d sw)) as Hwf0.
  destruct (add_bucket_wf s0 p1 p2 s w Hadd) as [_ Hstrong];
    [by rewrite Hd|done|].
  destruct (Hstrong Hmod _ _ _ _ Hc Hb). destruct (Hall _ _ _ _ Hc Hb). lia.
Qed.

Lemma entries_keep_pace_with_buckets_witness :
  ∃ s, add_all (init f_5e_3 ["the"%string]) scenario_stream = Ok s
    ∧ 1 ≤ current_bucket_id s
    ∧ (∀ t1 t2 c, count s t1 t2 = Some c →
         ∃ b, created_bucket s t1 t2 = Some b
              ∧ 0 ≤ b < current_bucket_id s
              ∧ current_bucket_id s ≤ c + b)
    ∧ (n s `mod` 200 = 0 →
       ∀ t1 t2 c, count s t1 t2 = Some c →
         ∃ b, created_bucket s t1 t2 = Some b
              ∧ b ≤ current_bucket_id s - 2 ∧ 3 ≤ c).
Proof.
  apply (entries_keep_pace_with_buckets f_5e_3 200 ["the"%string]
           scenario_stream); [reflexivity|lia].
Defined.

(** X9: weed-out is idempotent: on synchronised tables [weed_out_bigrams]
    returns a state that a second [weed_out_bigrams] returns unchanged. *)
Theorem weed_out_bigrams_idempotent (s : t) :
  synced s →
  ∃ s', weed_out_bigrams s = Ok s' ∧ weed_out_bigrams s' = Ok s'.
Proof.
  intros Hs. destruct (weed_out_bigrams_total s Hs) as [s' H].
  exists s'. split; [done|].
  pose proof (weed_out_bigrams_synced _ _ H Hs) as Hs'.
  unfold weed_out_bigrams.
  destruct (scan_bigrams_total s' Hs') as [q Hq]. rewrite Hq. simpl.
  destruct (scan_bigrams _ _ Hq) as [_ Hin].
  assert (q = []) as ->.
  { destruct q as [|[t1 t2] q]; [done|]. exfalso.
    apply (weed_out_bigrams_not_weeded _ _ t1 t2 H), Hin. by left. }
  simpl. by destruct s'.
Qed.

Lemma weed_out_bigrams_idempotent_witness :
  ∃ s', weed_out_bigrams (count_pair (init f_0_5 []) "a" "b") = Ok s'
        ∧ weed_out_bigrams s' = Ok s'.
Proof.
  apply (weed_out_bigrams_idempotent (count_pair (init f_0_5 []) "a" "b")).
  apply count_pair_synced, init_synced.
Defined.

(** ** Narrow windows *)

Section narrow.
Import BigramCounter.
Implicit Types s : t.

Lemma mod_succ (a w : Z) :
  0 < w → (a + 1) `mod` w ≠ 0 → (a + 1) `mod` w = a `mod` w + 1.
Proof.
  intros Hw Hne. pose proof (div_succ_step a w Hw) as H.
  rewrite decide_False in H by done.
  pose proof (Z.div_mod a w ltac:(lia)).
  pose proof (Z.div_mod (a + 1) w ltac:(lia)). nia.
Qed.

Lemma count_pair_fresh_entries (w : Z) s (t1 t2 k1 k2 : string) (c b : Z) :
  0 < w → fresh_entries w s →
  count (count_pair s t1 t2) k1 k2 = Some c →
  created_bucket (count_pair s t1 t2) k1 k2 = Some b →
  b = current_bucket_id s - 1 ∧ c ≤ n s `mod` w + 1.
Proof.
  intros Hw Hf. pose proof (Z.mod_pos_bound (n s) w Hw).
  assert (count s k1 k2 = Some c → created_bucket s k1 k2 = Some b →
          b = current_bucket_id s - 1 ∧ c ≤ n s `mod` w + 1) as Hold.
  { intros Hc Hb. destruct (Hf _ _ _ _ Hc Hb). split; [done|lia]. }
  destruct (decide ((t1 ∉ stopwords s) ∧ (t2 ∉ stopwords s))) as [[H1 H2]|Hsw].
  - rewrite count_pair_count, count_pair_created_bucket by done.
    case_decide as Hk; [|done]. destruct Hk as [<- <-].
    destruct (count s t1 t2) as [c0|] eqn:E; simpl.
    + intros [= <-] Hb. destruct (Hf _ _ _ _ E Hb). split; [done|lia].
    + intros [= <-] [= <-]. split; [done|lia].
  - unfold count, created_bucket in *.
    destruct (count_pair_stopword s t1 t2) as [-> ->]; [|done].
    destruct (decide (t1 ∈ stopwords s)); [tauto|].
    destruct (decide (t2 ∈ stopwords s)); tauto.
Qed.

(** With a window of one or two pairs no entry outlives its bucket. *)
Lemma add_fresh_entries s (t1 t2 : string) s' w :
  add s t1 t2 = Ok s' → width (delta s) = Ok w → 0 < w ≤ 2 →
  synced s → fresh_entries w s →
  fresh_entries w s' ∧ (n s' `mod` w = 0 → no_entries s').
Proof.
  intros Hadd Hw Hrange Hsy Hf.
  destruct (add_fields _ _ _ _ Hadd) as (Hn & _ & _).
  pose proof (count_pair_synced s t1 t2 Hsy) as Hsy1.
  pose proof (Z.mod_pos_bound (n s) w ltac:(lia)) as Hmod.
  apply add_Ok in Hadd as (w' & Hw' & Hnz & H).
  assert (w' = w) as -> by congruence.
  case_decide as Hb.
  - assert (no_entries s') as Hnone.
    { intros k1 k2. apply move_next_bucket_lookup in H as [_ Hl].
      destruct (Hl k1 k2) as (Hl1 & _ & _ & Hl4).
      destruct (count s' k1 k2) as [c|] eqn:Hc; [|done].
      specialize (Hl1 _ eq_refl).
      destruct (proj1 (Hsy1 k1 k2)) as [b Hb1]; [eauto|].
      destruct (count_pair_fresh_entries w s t1 t2 k1 k2 c b)
        as [-> Hle]; [lia|done..|].
      assert (Some c = None) as Hnone; [|done].
      apply (Hl4 c (current_bucket_id s - 1) Hl1 Hb1).
      rewrite count_pair_current_bucket_id. lia. }
    split; [|done]. intros k1 k2 c b Hc. by rewrite Hnone in Hc.
  - subst. split; [|by rewrite count_pair_n].
    intros k1 k2 c b Hc Hcr.
    rewrite count_pair_current_bucket_id, count_pair_n.
    rewrite mod_succ by (done || lia).
    apply (count_pair_fresh_entries w s t1 t2 k1 k2); [lia|done..].
Qed.

Lemma add_all_fresh_entries (pairs : list (string * string)) : ∀ s s' w,
  add_all s pairs = Ok s' → width (delta s) = Ok w → 0 < w ≤ 2 →
  synced s → fresh_entries w s → (n s `mod` w = 0 → no_entries s) →
  fresh_entries w s' ∧ (n s' `mod` w = 0 → no_entries s').
Proof.
  induction pairs as [|[t1 t2] pairs IH]; intros s s' w H Hw Hrange Hsy Hf Hn.
  - by injection H as <-.
  - simpl in H. inv_bind H.
    destruct (add_fields _ _ _ _ Ha) as (_ & Hd & _).
    destruct (add_fresh_entries _ _ _ _ _ Ha Hw Hrange Hsy Hf) as [Hf' Hn'].
    apply (IH a s' w); try done.
    + by rewrite Hd.
    + by eapply add_synced.
Qed.
End narrow.

Import BigramCounter.

(** X8: with a window width [int(1/delta)] of 1 or 2 (any [delta] above
    1/3 up to 1) the table holds no entry at any bucket boundary, whatever
    the stream: a pair can be counted at most twice before the boundary,
    and the weed-out, run with the advanced bucket id, deletes every entry
    with a count of at most 2. *)
Theorem narrow_window_forgets_everything (d : spec_float) (w : Z)
    (sw : list string) (stream : list (string * string)) :
  width d = Ok w → 0 < w ≤ 2 → Z.of_nat (length stream) `mod` w = 0 →
  ∃ s, add_all (init d sw) stream = Ok s
       ∧ ∀ t1 t2, count s t1 t2 = None ∧ created_bucket s t1 t2 = None.
Proof.
  intros Hw Hrange Hlen.
  destruct (add_all_total stream (init d sw) w) as [s Hs];
    [apply init_synced|done|lia|].
  exists s. split; [done|].
  destruct (add_all_fields _ _ _ Hs) as (Hn & _ & _ & Hsy).
  specialize (Hsy (init_synced d sw)).
  assert (no_entries (init d sw)) as Hinit by done.
  destruct (add_all_fresh_entries _ _ _ w Hs Hw Hrange (init_synced d sw))
    as [_ Hnone].
  { intros t1 t2 c b Hc. by rewrite Hinit in Hc. }
  { done. }
  assert (no_entries s) as Hno.
  { apply Hnone. rewrite Hn. by simpl. }
  intros t1 t2. split; [done|].
  destruct (created_bucket s t1 t2) as [b|] eqn:Hb; [|done].
  destruct (proj2 (Hsy t1 t2)) as [c Hc]; [eauto|].
  by rewrite Hno in Hc.
Qed.

Lemma narrow_window_forgets_everything_witness :
  ∃ s, add_all (init f_0_5 []) scenario_stream = Ok s
       ∧ ∀ t1 t2, count s t1 t2 = None ∧ created_bucket s t1 t2 = None.
Proof.
  apply (narrow_window_forgets_everything f_0_5 2 [] scenario_stream);
    [reflexivity|lia|reflexivity].
Defined.

(** ** The threshold of the source *)

Section threshold.
Local Open Scope R_scope.

Lemma pow2_le_exp (k : nat) : 2 ^ k <= exp (INR k).
Proof.
  assert (2 < exp 1) as H2.
  { assert (1 + 1 < exp 1) by (apply exp_ineq1; lra). lra. }
  induction k as [|k IH].
  - simpl. rewrite exp_0. lra.
  - rewrite S_INR, exp_plus. simpl pow.
    assert (0 < 2 ^ k) by (apply pow_lt; lra). nra.
Qed.

Lemma exp_1000_lower : IZR (2 ^ 1000) <= exp 1000.
Proof.
  pose proof (pow2_le_exp 1000) as H.
  rewrite pow_IZR in H. rewrite INR_IZR_INZ in H.
  replace (Z.of_nat 1000) with 1000%Z in H by reflexivity. exact H.
Qed.

Lemma ratio_le_total (a b u m : R) :
  0 < a <= b → 1 <= u → 0 < m → 0 < a / b / (u / m) <= m.
Proof.
  intros [Ha Hab] Hu Hm.
  assert (a / b / (u / m) = m * (a / (b * u))) as -> by (field; lra).
  set (q := a / (b * u)).
  assert (q * (b * u) = a) as Hq by (unfold q; field; nra).
  assert (0 < b * u) by nra.
  assert (0 < q) by (unfold q; apply Rdiv_lt_0_compat; lra).
  assert (q <= 1) by nra.
  split; nra.
Qed.

(** The statistic of an entry is at most the logarithm of the number of
    tokens. *)
Lemma pmi_value_lt_1000 (c ca ux N : Z) :
  (0 < c ≤ ca)%Z → (1 ≤ ux)%Z → (0 < N < 2 ^ 1000)%Z →
  pmi_value c ca ux N < 1000.
Proof.
  intros [Hc Hca] Hux [HN Hbig]. unfold pmi_value.
  destruct (ratio_le_total (IZR c) (IZR ca) (IZR ux) (IZR N)) as [Hpos Hle].
  { split; [by apply IZR_lt|by apply IZR_le]. }
  { by apply IZR_le. }
  { by apply IZR_lt. }
  rewrite <- (ln_exp 1000). apply ln_increasing; [done|].
  apply IZR_lt in Hbig. pose proof exp_1000_lower. lra.
Qed.
End threshold.

(** ** Bigram counts against unigram counts *)

Section bigram_unigram.
Import BigramCounter.

Lemma frequency_cons (p q : string * string) stream :
  frequency p (q :: stream)
  = (if decide (q = p) then 1 else 0) + frequency p stream.
Proof.
  unfold frequency. rewrite filter_cons. case_decide; simpl length; lia.
Qed.

Lemma frequency_app (p : string * string) s1 s2 :
  frequency p (s1 ++ s2) = frequency p s1 + frequency p s2.
Proof. unfold frequency. rewrite filter_app, length_app. lia. Qed.

Lemma frequency_zip (y x : string) (l k : list string) :
  frequency (y, x) (zip l k) ≤ occurrences y l
  ∧ frequency (y, x) (zip l k) ≤ occurrences x k.
Proof.
  revert k. induction l as [|a l IH]; intros k.
  - simpl. unfold frequency, occurrences. simpl.
    pose proof (occurrences_nonneg x k). unfold occurrences in *. lia.
  - destruct k as [|b k].
    + simpl. pose proof (occurrences_nonneg y (a :: l)).
      unfold frequency. simpl. unfold occurrences in *. lia.
    + simpl zip. rewrite frequency_cons, !occurrences_cons.
      destruct (IH k) as [H1 H2].
      case_decide as Hp; [injection Hp as -> ->|];
        repeat case_decide; (done || lia).
Qed.

Lemma frequency_pairs_of (y x : string) (tokens : list string) :
  frequency (y, x) (pairs_of tokens) ≤ occurrences y tokens
  ∧ frequency (y, x) (pairs_of tokens) ≤ occurrences x tokens.
Proof.
  unfold pairs_of. destruct (frequency_zip y x tokens (tail tokens)) as [H1 H2].
  split; [done|]. destruct tokens as [|a l]; [done|].
  simpl tail in *. rewrite occurrences_cons. case_decide; lia.
Qed.

Lemma frequency_articles (y x : string) (articles : list (list string)) :
  frequency (y, x) (concat (pairs_of <$> articles))
    ≤ occurrences y (concat articles)
  ∧ frequency (y, x) (concat (pairs_of <$> articles))
    ≤ occurrences x (concat articles).
Proof.
  induction articles as [|tokens articles [IH1 IH2]].
  - unfold frequency, occurrences. simpl. lia.
  - rewrite fmap_cons. simpl concat. rewrite frequency_app, !occurrences_app.
    destruct (frequency_pairs_of y x tokens). lia.
Qed.
End bigram_unigram.

(** ** [Counter] as a whole table *)

Section counter_tables.
Implicit Types c u : gmap string Z.

Lemma positive_eq c u :
  positive c → positive u →
  (∀ tok, Counter.get c tok = Counter.get u tok) → c = u.
Proof.
  intros Hc Hu Hget. apply map_eq. intros tok. specialize (Hget tok).
  unfold Counter.get in Hget.
  destruct (c !! tok) as [v|] eqn:E1, (u !! tok) as [v'|] eqn:E2;
    simpl in Hget; try done.
  - by subst.
  - specialize (Hc _ _ E1). lia.
  - specialize (Hu _ _ E2). lia.
Qed.

Lemma of_tokens_fold_positive (tokens : list string) : ∀ c,
  positive c →
  positive (foldl (λ c tok, <[tok := Counter.get c tok + 1]> c) c tokens).
Proof.
  induction tokens as [|x tokens IH]; intros c Hc; [done|].
  simpl. apply IH. intros tok v.
  rewrite lookup_insert_Some. intros [[<- <-]|[_ H]]; [|by eapply Hc].
  unfold Counter.get. destruct (c !! x) as [v0|] eqn:E; simpl; [|lia].
  specialize (Hc _ _ E). lia.
Qed.

Lemma of_tokens_positive (tokens : list string) :
  positive (Counter.of_tokens tokens).
Proof. apply of_tokens_fold_positive. intros tok v. by rewrite lookup_empty. Qed.
End counter_tables.

Import BigramCounter.

(** X10: with the threshold 1000 that the source fixes, the article pass
    hands no phrase at all to the lexicon, for every stopword list and every
    corpus of fewer than 2^1000 tokens: the statistic of an entry is at most
    the logarithm of the number of tokens. *)
Theorem source_threshold_rejects_everything (sw : list string)
    (articles : list (list string)) :
  Z.of_nat (length (concat articles)) < 2 ^ 1000 →
  article_phrases sw articles = Ok [].
Proof.
  intros Hsmall. unfold article_phrases.
  destruct (count_articles_total articles ∅ (init f_5e_3 sw) 200)
    as [[unigrams counter] H]; [apply init_synced|reflexivity|lia|].
  rewrite H. simpl.
  pose proof (count_articles_finished _ _ _ _ _ H) as Hfin.
  destruct (count_articles_unigrams _ _ _ _ _ H) as (_ & Htotal & _); [done|].
  rewrite total_empty, Z.add_0_l in Htotal.
  destruct (phrases_total Scorer.threshold unigrams (bigrams counter) Hfin)
    as [ps Hps].
  rewrite Hps. f_equal. destruct ps as [|p ps]; [done|]. exfalso.
  destruct (proj1 (phrases_elem _ _ _ _ Hps p))
    as (y & sub & x & c & Hy & Hx & _ & Hge); [by left|].
  destruct Hfin as [Hpos Hall].
  destruct (Hall y x c) as [Hc Hu]; [unfold lookup2; by rewrite Hy|].
  assert (positive sub) as Hsub.
  { intros k v Hk. apply (Hall y k v). unfold lookup2. by rewrite Hy. }
  pose proof (total_ge sub x c Hsub Hx) as Hca.
  assert (Counter.get unigrams x ≤ Counter.total unigrams) as HN.
  { unfold Counter.get in *.
    destruct (unigrams !! x) as [v|] eqn:E; simpl in *; [|lia].
    by apply (total_ge unigrams x v). }
  pose proof (pmi_value_lt_1000 c (Counter.total sub)
                (Counter.get unigrams x) (Counter.total unigrams)) as Hlt.
  unfold Scorer.threshold in Hge.
  assert (pmi_value c (Counter.total sub) (Counter.get unigrams x)
            (Counter.total unigrams) < 1000)%R; [|lra].
  apply Hlt; lia.
Qed.

Lemma source_threshold_rejects_everything_witness :
  article_phrases ["the"%string]
    [["new"; "york"; "new"; "york"; "new"; "york"]]%string = Ok [].
Proof.
  apply (source_threshold_rejects_everything ["the"%string]
           [["new"; "york"; "new"; "york"; "new"; "york"]]%string).
  by vm_compute.
Defined.

(** X11: after the counting pass (with a non-zero window width) every
    bigram entry has a count of at least 1 and at most the unigram count of
    its first token and that of its second token. *)
Theorem bigram_count_le_unigram_counts (d : spec_float) (w : Z)
    (sw : list string) (articles : list (list string)) :
  width d = Ok w → w ≠ 0 →
  ∃ unigrams counter,
    count_articles ∅ (init d sw) articles = Ok (unigrams, counter)
    ∧ ∀ y x c, count counter y x = Some c →
        1 ≤ c ∧ c ≤ Counter.get unigrams y ∧ c ≤ Counter.get unigrams x.
Proof.
  intros Hw Hnz.
  destruct (count_articles_total articles ∅ (init d sw) w)
    as [[unigrams counter] H]; [apply init_synced|done|done|].
  exists unigrams, counter. split; [done|].
  destruct (count_articles_unigrams _ _ _ _ _ H) as (Hg & _ & _); [done|].
  pose proof (count_articles_counter _ _ _ _ _ H) as Hrun.
  pose proof (add_all_sound _ _ _ [] Hrun (init_sound d sw)) as Hsound.
  intros y x c Hc. destruct (Hsound y x c Hc) as [[H1 Hfreq] _].
  simpl in Hfreq. destruct (frequency_articles y x articles) as [Hy Hx].
  rewrite !Hg. unfold Counter.get. rewrite !lookup_empty. simpl. lia.
Qed.

Lemma bigram_count_le_unigram_counts_witness :
  ∃ unigrams counter,
    count_articles ∅ (init f_5e_3 [])
      [["new"; "york"; "new"; "york"; "new"; "york"]]%string
    = Ok (unigrams, counter)
    ∧ ∀ y x c, count counter y x = Some c →
        1 ≤ c ∧ c ≤ Counter.get unigrams y ∧ c ≤ Counter.get unigrams x.
Proof.
  apply (bigram_count_le_unigram_counts f_5e_3 200 []
           [["new"; "york"; "new"; "york"; "new"; "york"]]%string);
    [reflexivity|lia].
Defined.

(** X12: counting article by article is counting the concatenated stream:
    [Counter(l1)] augmented by [Counter(l2)] is [Counter(l1 + l2)], and the
    unigram table of the counting pass is the [Counter] of all tokens. *)
Theorem unigrams_compose :
  (∀ l1 l2 : list string,
     Counter.iadd (Counter.of_tokens l1) (Counter.of_tokens l2)
     = Counter.of_tokens (l1 ++ l2))
  ∧ (∀ (d : spec_float) (w : Z) (sw : list string)
       (articles : list (list string)),
       width d = Ok w → w ≠ 0 →
       ∃ unigrams counter,
         count_articles ∅ (init d sw) articles = Ok (unigrams, counter)
         ∧ unigrams = Counter.of_tokens (concat articles)).
Proof.
  split.
  - intros l1 l2.
    destruct (iadd_spec (Counter.of_tokens l1) (Counter.of_tokens l2))
      as (Hg & _ & Hpos); [apply of_tokens_nonneg..|].
    apply positive_eq; [done|apply of_tokens_positive|].
    intros tok. by rewrite Hg, !of_tokens_get, occurrences_app.
  - intros d w sw articles Hw Hnz.
    destruct (count_articles_total articles ∅ (init d sw) w)
      as [[unigrams counter] H]; [apply init_synced|done|done|].
    exists unigrams, counter. split; [done|].
    destruct (count_articles_unigrams _ _ _ _ _ H) as (Hg & _ & Hpos); [done|].
    apply positive_eq; [done|apply of_tokens_positive|].
    intros tok. rewrite Hg, of_tokens_get. unfold Counter.get.
    by rewrite lookup_empty.
Qed.

Lemma unigrams_compose_witness :
  ∃ unigrams counter,
    count_articles ∅ (init f_5e_3 []) [["a"; "b"]; ["a"]]%string
    = Ok (unigrams, counter)
    ∧ unigrams = Counter.of_tokens ["a"; "b"; "a"]%string.
Proof.
  apply (proj2 unigrams_compose f_5e_3 200 [] [["a"; "b"]; ["a"]]%string);
    [reflexivity|lia].
Defined.
